(** * Verification of the leaderboard and download endpoints of [main.py]

    The development embeds the two endpoints with a non-trivial contract:

    - [get_leaderboard] (the ranking query): Python values, [int()], the
      composite sort key, the stable [sorted], the slice [[:limit]] and the
      projection to leaderboard entries;
    - [download_youtube] (the retrieval-and-stream pipeline): the URL
      pattern [YOUTUBE_URL_RE], the handler's control flow over an explicit
      environment with an effect trace, and the generator [file_iterator]
      as a state machine driven by the web framework. *)

From Stdlib Require Import ZArith NArith List String Ascii Bool Lia.
From Stdlib Require Import Strings.Byte.
From Stdlib Require Import Sorting.Sorted Sorting.Permutation.
From stdpp Require Import base option list strings gmap.

Import ListNotations.
Local Open Scope Z_scope.

(** ** Python values and exceptions *)

Module Py.

(** A Python [float]: a finite binary value [m * 2^e], an infinity or NaN. *)
Inductive pyfloat :=
| FFinite (m e : Z)
| FInf (negative : bool)
| FNaN.

(** A Python [str]: its code points. *)
Abbreviation text := (list N).

(** The [str] written with the ASCII characters of [s]. *)
Definition text_of (s : string) : text :=
  map N_of_ascii (list_ascii_of_string s).

(** The values a stored document can hold.  [POther] stands for every value
    [int()] has no conversion for (lists, nested documents, object ids,
    dates). *)
Inductive pyval :=
| PNone
| PBool (b : bool)
| PInt (z : Z)
| PFloat (f : pyfloat)
| PText (s : text)
| POther.

(** The [str] value written with the ASCII characters of [s]. *)
Definition PStr (s : string) : pyval := PText (text_of s).

(** Exceptions, by class.  [HTTPException] carries the status and, when its
    detail is a string literal of the source, that literal. *)
Inductive pyexn :=
| ValueError_literal (s : text)         (* int("abc") *)
| ValueError_max_digits (digits : Z)    (* int("1" * 4301) *)
| ValueError_int_nan                    (* int(float("nan")) *)
| OverflowError_int_inf                 (* int(float("inf")) *)
| TypeError_int (v : pyval)             (* int(None), int([..]) *)
| DownloadError (msg : string)          (* yt_dlp.utils.DownloadError *)
| ImportError (msg : string)
| OSError (msg : string)
| OtherException (msg : string)
| RaisedHTTP (status : Z) (text : string).

(** [ValueError] of [int()] on the [str] written with the ASCII characters
    of [s]. *)
Definition ValueError_int_literal (s : string) : pyexn :=
  ValueError_literal (text_of s).

(** The [detail] of an [HTTPException]: a literal, [str(e)], or an f-string
    [f"{prefix}{e}"]. *)
Inductive detail :=
| DLit (s : string)
| DStr (e : pyexn)
| DFmt (prefix : string) (e : pyexn).

Record HTTPException := mkHTTP { status_code : Z; http_detail : detail }.

(** Results of fallible code: [inl e] is "raised [e]". *)
Definition res (A : Type) : Type := pyexn + A.

Definition ret {A} (a : A) : res A := inr a.
Definition raise {A} (e : pyexn) : res A := inl e.
Definition bind {A B} (m : res A) (k : A -> res B) : res B :=
  match m with
  | inl e => inl e
  | inr a => k a
  end.

Notation "'try!' x ':=' m 'in' k" := (bind m (fun x => k))
  (at level 10, x name, m at level 100, k at level 200).

(** [[f(x) for x in l]]: left to right, the first exception propagates. *)
Fixpoint mapM {A B} (f : A -> res B) (l : list A) : res (list B) :=
  match l with
  | [] => ret []
  | x :: l' => try! y := f x in try! ys := mapM f l' in ret (y :: ys)
  end.

(** *** [int()] on strings

    [PyLong_FromUnicodeObject], as of CPython 3.11 with its Unicode 14
    tables and the default limit of 4300 digits.  A string that is not
    pure ASCII first has its Unicode white space turned into blanks and its
    Unicode decimal digits into ASCII digits; the first other character
    outside ASCII ends it with a question mark.  [PyLong_FromString] then
    reads, in base 10: leading white space ([Py_ISSPACE]: code points 9 to
    13 and 32), an optional sign, decimal digits in which single
    underscores may separate digits, trailing white space, and nothing
    else. *)

(** [Py_UNICODE_ISSPACE] *)
Definition is_unicode_space (c : N) : bool :=
  ((9 <=? c) && (c <=? 13) || (28 <=? c) && (c <=? 32)
   || (c =? 133) || (c =? 160) || (c =? 5760)
   || (8192 <=? c) && (c <=? 8202)
   || (c =? 8232) || (c =? 8233) || (c =? 8239) || (c =? 8287)
   || (c =? 12288))%N.

(** The code points of the digit zero of every script: each is followed by
    the digits one to nine of that script. *)
Definition decimal_zeros : list N :=
  [48; 1632; 1776; 1984; 2406; 2534; 2662; 2790; 2918; 3046; 3174; 3302;
   3430; 3558; 3664; 3792; 3872; 4160; 4240; 6112; 6160; 6470; 6608; 6784;
   6800; 6992; 7088; 7232; 7248; 42528; 43216; 43264; 43472; 43504; 43600;
   44016; 65296; 66720; 68912; 69734; 69872; 69942; 70096; 70384; 70736;
   70864; 71248; 71360; 71472; 71904; 72016; 72784; 73040; 73120; 92768;
   92864; 93008; 120782; 120792; 120802; 120812; 120822; 123200; 123632;
   125264; 130032]%N.

(** [Py_UNICODE_TODECIMAL] *)
Definition unicode_decimal (c : N) : option N :=
  match List.find (fun z => (z <=? c) && (c <? z + 10))%N decimal_zeros with
  | Some z => Some (c - z)%N
  | None => None
  end.

(** [_PyUnicode_TransformDecimalAndSpaceToASCII] *)
Fixpoint transform_non_ascii (s : text) : text :=
  match s with
  | [] => []
  | c :: s' =>
      if (c <? 127)%N then c :: transform_non_ascii s'
      else if is_unicode_space c then 32%N :: transform_non_ascii s'
      else
        match unicode_decimal c with
        | Some d => (48 + d)%N :: transform_non_ascii s'
        | None => [63%N]
        end
  end.

Definition transform (s : text) : text :=
  if forallb (fun c => c <? 128)%N s then s else transform_non_ascii s.

(** [Py_ISSPACE] *)
Definition is_space (c : N) : bool :=
  ((9 <=? c) && (c <=? 13) || (c =? 32))%N.

Definition digit_value (c : N) : option Z :=
  if ((48 <=? c) && (c <=? 57))%N then Some (Z.of_N c - 48) else None.

Definition is_underscore (c : N) : bool := (c =? 95)%N.

Fixpoint skip_spaces (s : text) : text :=
  match s with
  | c :: s' => if is_space c then skip_spaces s' else s
  | [] => s
  end.

(** The digit scan: [acc] is the value read so far, [prev_us] tells that the
    previous character was an underscore, [digits] counts the digits read.
    Returns the value, the number of digits and the rest of the input, or
    [None] for a doubled or a trailing underscore. *)
Fixpoint scan_digits (s : text) (acc : Z) (prev_us : bool) (digits : Z)
  : option (Z * Z * text) :=
  match s with
  | c :: s' =>
      match digit_value c with
      | Some d => scan_digits s' (10 * acc + d) false (digits + 1)
      | None =>
          if is_underscore c then
            if prev_us then None else scan_digits s' acc true digits
          else if prev_us then None
          else Some (acc, digits, s)
      end
  | [] => if prev_us then None else Some (acc, digits, s)
  end.

(** [sys.get_int_max_str_digits()], by default. *)
Definition MAX_STR_DIGITS : Z := 4300.

Inductive parsed :=
| Parsed (z : Z)
| Invalid                       (* "invalid literal for int() with base 10" *)
| TooManyDigits (digits : Z).   (* "Exceeds the limit (4300 digits)" *)

(** [PyLong_FromString]: the underscores are checked first, then the number
    of digits, then that there is a digit and nothing after the number but
    white space. *)
Definition parse_ascii (s : text) : parsed :=
  let s1 := skip_spaces s in
  let '(sign, s2) :=
    match s1 with
    | 43%N :: r => (1, r)
    | 45%N :: r => (-1, r)
    | _ => (1, s1)
    end in
  match s2 with
  | 95%N :: _ => Invalid
  | _ =>
      match scan_digits s2 0 false 0 with
      | Some (n, digits, rest) =>
          if MAX_STR_DIGITS <? digits then TooManyDigits digits
          else if digits =? 0 then Invalid
          else
            match skip_spaces rest with
            | [] => Parsed (sign * n)
            | _ => Invalid
            end
      | None => Invalid
      end
  end.

Definition parse_int (s : text) : parsed := parse_ascii (transform s).

(** [int(v)]: identity on integers, 0/1 on booleans, truncation toward zero
    on finite floats, the parse above on strings; everything else raises. *)
Definition int (v : pyval) : res Z :=
  match v with
  | PInt z => ret z
  | PBool b => ret (if b then 1 else 0)
  | PFloat (FFinite m e) =>
      ret (if 0 <=? e then m * 2 ^ e else Z.quot m (2 ^ (- e)))
  | PFloat (FInf _) => raise OverflowError_int_inf
  | PFloat FNaN => raise ValueError_int_nan
  | PText s =>
      match parse_int s with
      | Parsed z => ret z
      | Invalid => raise (ValueError_literal s)
      | TooManyDigits n => raise (ValueError_max_digits n)
      end
  | PNone => raise (TypeError_int PNone)
  | POther => raise (TypeError_int POther)
  end.

(** A stored document: a Python [dict] with string keys. *)
Abbreviation doc := (gmap string pyval).

(** [d.get(k, dflt)] *)
Definition get (d : doc) (k : string) (dflt : pyval) : pyval :=
  default dflt (d !! k).

(** [l[:stop]] for a list of length [n]: a negative [stop] counts from the
    end and is clamped at 0, a [stop] beyond the end is clamped at [n]. *)
Definition slice_to {A} (l : list A) (stop : Z) : list A :=
  let n := Z.of_nat (length l) in
  let stop' := if stop <? 0 then Z.max 0 (n + stop) else Z.min stop n in
  firstn (Z.to_nat stop') l.

End Py.

Import Py.

(** ** The ranking query: [get_leaderboard] *)

Module Leaderboard.

(** One item of the response: the dict built by the list comprehension. *)
Record entry := mkEntry {
  name : pyval;
  points : Z;
  level : Z;
  duration_ms : Z
}.

(** The sort key is a pair of integers; Python compares tuples
    lexicographically. *)
Definition key : Type := Z * Z.

Definition key_lt (a b : key) : bool :=
  (a.1 <? b.1) || ((a.1 =? b.1) && (a.2 <? b.2)).

Definition key_le (a b : key) : bool := negb (key_lt b a).

(** [lambda d: (-int(d.get("points", 0)), int(d.get("duration_ms", 1_000_000)))] *)
Definition sort_key (d : doc) : res key :=
  try! p := int (get d "points" (PInt 0)) in
  try! t := int (get d "duration_ms" (PInt 1000000)) in
  ret (- p, t).

(** [sorted(l, key=f)] computes every key first, left to right, then sorts
    the decorated list with a stable sort.  A stable sort has one possible
    result, so the algorithm is immaterial; this one inserts each element
    before the first element of the sorted tail whose key is not smaller. *)
Fixpoint insert_keyed {A} (x : key * A) (l : list (key * A)) : list (key * A) :=
  match l with
  | [] => [x]
  | y :: l' => if key_lt y.1 x.1 then y :: insert_keyed x l' else x :: y :: l'
  end.

Fixpoint sort_keyed {A} (l : list (key * A)) : list (key * A) :=
  match l with
  | [] => []
  | x :: l' => insert_keyed x (sort_keyed l')
  end.

Definition decorate {A} (f : A -> res key) (l : list A) : res (list (key * A)) :=
  mapM (fun x => try! k := f x in ret (k, x)) l.

Definition sorted {A} (f : A -> res key) (l : list A) : res (list A) :=
  try! kl := decorate f l in
  ret (map snd (sort_keyed kl)).

(** The dict display of the comprehension; its values are evaluated in the
    order written. *)
Definition entry_of (d : doc) : res entry :=
  let n := get d "name" (PStr "Player") in
  try! p := int (get d "points" (PInt 0)) in
  try! l := int (get d "level" (PInt 1)) in
  try! t := int (get d "duration_ms" (PInt 0)) in
  ret (mkEntry n p l t).

(** The handler's outcome: [{"ok": True, "items": top}] or a raised
    [HTTPException]. *)
Inductive response :=
| Ok (items : list entry)
| Failed (e : HTTPException).

(** The default of the query parameter [limit]. *)
Definition default_limit : Z := 20.

(** [get_leaderboard(limit)].  [get_documents] is the outcome of
    [get_documents("score", {})], a function of the [database] module:
    the stored documents, or the exception it raised. *)
Definition get_leaderboard (get_documents : res (list doc)) (limit : option Z)
  : response :=
  let limit := default default_limit limit in
  let body :=
    try! docs := get_documents in
    try! docs_sorted := sorted sort_key docs in
    mapM entry_of (slice_to docs_sorted limit) in
  match body with
  | inr top => Ok top
  | inl e => Failed (mkHTTP 500 (DStr e))
  end.

(** *** Score submission *)

(** The request body of [/api/score], with the bounds of its fields. *)
Record ScoreIn := mkScoreIn {
  in_name : string;
  in_points : Z;
  in_level : Z;
  in_duration_ms : Z
}.

Definition ScoreIn_valid (p : ScoreIn) : bool :=
  (1 <=? Z.of_nat (String.length (in_name p)))
  && (Z.of_nat (String.length (in_name p)) <=? 20)
  && (0 <=? in_points p) && (1 <=? in_level p) && (0 <=? in_duration_ms p).

(** Modelled from the spec: [create_document] of the [database] module is
    not part of the sources; following section 4.1 it "persists the record
    unmodified", the collection being the list of documents that
    [get_documents] returns, oldest first. *)
Definition to_document (p : ScoreIn) : doc :=
  <["name" := PStr (in_name p)]>
  (<["points" := PInt (in_points p)]>
  (<["level" := PInt (in_level p)]>
  (<["duration_ms" := PInt (in_duration_ms p)]> ∅))).

Definition create_document (store : list doc) (p : ScoreIn) : list doc :=
  store ++ [to_document p].

(** *** Vocabulary of the statements *)

(** Order of the decorated list. *)
Definition keyed_le {A} (x y : key * A) : Prop := key_le x.1 y.1 = true.

Definition has_key {A} (k : key) (x : key * A) : bool :=
  (x.1.1 =? k.1) && (x.1.2 =? k.2).

(** [int(v)] returns. *)
Definition convertible (v : pyval) : bool :=
  match int v with
  | inr _ => true
  | inl _ => false
  end.

(** The field [k] of [d] is missing or holds a value [int()] converts. *)
Definition field_ok (d : doc) (k : string) : bool :=
  match d !! k with
  | None => true
  | Some v => convertible v
  end.

Definition well_formed (d : doc) : bool :=
  field_ok d "points" && field_ok d "level" && field_ok d "duration_ms".

(** A document that holds a score record within the bounds of [ScoreIn],
    whatever else it holds. *)
Definition is_score_record (d : doc) : bool :=
  match d !! "name", d !! "points", d !! "level", d !! "duration_ms" with
  | Some (PText n), Some (PInt p), Some (PInt l), Some (PInt t) =>
      (1 <=? Z.of_nat (length n)) && (Z.of_nat (length n) <=? 20)
      && (0 <=? p) && (1 <=? l) && (0 <=? t)
  | _, _, _, _ => false
  end.

(** The value the specification gives a numeric field for the comparison:
    the default when the field is missing or not numeric. *)
Definition coerced (d : doc) (k : string) (dflt : Z) : Z :=
  match d !! k with
  | None => dflt
  | Some v =>
      match int v with
      | inr z => z
      | inl _ => dflt
      end
  end.

Definition spec_points (d : doc) : Z := coerced d "points" 0.
Definition spec_duration (d : doc) : Z := coerced d "duration_ms" 1000000.
Definition spec_key (d : doc) : key := (- spec_points d, spec_duration d).

(** [d1] may stand before [d2]: more points, or as many and not slower. *)
Definition spec_before (d1 d2 : doc) : Prop :=
  spec_points d2 < spec_points d1
  \/ (spec_points d1 = spec_points d2 /\ spec_duration d1 <= spec_duration d2).

(** The same order on the entries of a response. *)
Definition outranks (a b : entry) : Prop :=
  points b < points a
  \/ (points a = points b /\ duration_ms a <= duration_ms b).

Definition ranked (items : list entry) : Prop := StronglySorted outranks items.

End Leaderboard.

(** ** The URL pattern *)

Module Regex.

Local Open Scope N_scope.

(** A Python [str] is a sequence of code points. *)
Abbreviation ustr := (list N).

Definition of_string (s : string) : ustr :=
  map N_of_ascii (list_ascii_of_string s).

(** [_sre.unicode_tolower].  Exact on ASCII and on the two code points
    outside ASCII whose lower case is an ASCII letter (U+0130 and the Kelvin
    sign U+212A).  Every other code point outside ASCII has a lower case
    outside ASCII, different from U+017F unless it is U+017F itself; the
    model leaves such a code point as it is, which no comparison with the
    literals of an ASCII pattern can tell apart. *)
Definition unicode_tolower (c : N) : N :=
  if (65 <=? c) && (c <=? 90) then c + 32
  else if c =? 304 then 105
  else if c =? 8490 then 107
  else c.

(** [_sre.unicode_iscased] on the ASCII literals of a pattern. *)
Definition iscased (p : N) : bool :=
  ((65 <=? p) && (p <=? 90) || (97 <=? p) && (p <=? 122))%N.

(** [_ignorecase_fixes]: the extra equivalents of a lower-case ASCII letter
    (dotless i for [i], long s for [s]). *)
Definition ignorecase_fixes (lo : N) : list N :=
  if lo =? 105 then [105; 305]
  else if lo =? 115 then [115; 383]
  else [].

(** A literal [p] of a pattern compiled with [re.IGNORECASE] against the
    code point [x]: an uncased literal compares exactly, a cased one
    compares its lower case with the lower case of [x], or looks the latter
    up in the set of its equivalents when it has some. *)
Definition lit_match (p x : N) : bool :=
  if negb (iscased p) then x =? p
  else
    let lo := unicode_tolower p in
    match ignorecase_fixes lo with
    | [] => unicode_tolower x =? lo
    | fixes => existsb (N.eqb (unicode_tolower x)) fixes
    end.

Inductive charclass :=
| CLit (p : N)     (* a literal character *)
| CAny.            (* [.] without DOTALL: anything but a line feed *)

Definition class_match (c : charclass) (x : N) : bool :=
  match c with
  | CLit p => lit_match p x
  | CAny => negb (x =? 10)
  end.

Inductive regex :=
| Eps
| Chr (c : charclass)
| Seq (r1 r2 : regex)
| Alt (r1 r2 : regex)
| Opt (r : regex)            (* [r?], greedy *)
| Plus1 (c : charclass).     (* [c+], greedy *)

(** Backtracking matcher in continuation-passing style: [k] is what must
    match the rest of the subject. *)
Fixpoint rmatch (r : regex) (k : ustr -> bool) (s : ustr) : bool :=
  match r with
  | Eps => k s
  | Chr c =>
      match s with
      | x :: s' => class_match c x && k s'
      | [] => false
      end
  | Seq r1 r2 => rmatch r1 (rmatch r2 k) s
  | Alt r1 r2 => rmatch r1 k s || rmatch r2 k s
  | Opt r1 => rmatch r1 k s || k s
  | Plus1 c =>
      (fix more (s : ustr) : bool :=
         match s with
         | x :: s' => class_match c x && (more s' || k s')
         | [] => false
         end) s
  end.

(** [pattern.match(s)]: anchored at the start, free at the end. *)
Definition re_match (r : regex) (s : ustr) : bool := rmatch r (fun _ => true) s.

(** A run of literal characters. *)
Fixpoint lit (s : ustr) : regex :=
  match s with
  | [] => Eps
  | p :: s' => Seq (Chr (CLit p)) (lit s')
  end.

Definition str (s : string) : regex := lit (of_string s).

(** [^(https?://)?(www\.)?(youtube\.com|youtu\.be)/.+] *)
Definition YOUTUBE_URL_RE : regex :=
  Seq (Opt (Seq (str "http") (Seq (Opt (str "s")) (str "://"))))
 (Seq (Opt (str "www."))
 (Seq (Alt (str "youtube.com") (str "youtu.be"))
 (Seq (str "/")
      (Plus1 CAny)))).

(** *** Vocabulary of the statements *)

(** The language of a pattern. *)
Fixpoint lang (r : regex) (s : ustr) : Prop :=
  match r with
  | Eps => s = []
  | Chr c => exists x, s = [x] /\ class_match c x = true
  | Seq r1 r2 => exists s1 s2, s = s1 ++ s2 /\ lang r1 s1 /\ lang r2 s2
  | Alt r1 r2 => lang r1 s \/ lang r2 s
  | Opt r1 => lang r1 s \/ s = []
  | Plus1 c => s <> [] /\ Forall (fun x => class_match c x = true) s
  end.

(** Case folding, on the code points that fold to an ASCII character: the
    capital letters, the long s (U+017F) and the Kelvin sign (U+212A). *)
Definition casefold (x : N) : N :=
  if (65 <=? x) && (x <=? 90) then x + 32
  else if x =? 383 then 115
  else if x =? 8490 then 107
  else x.

(** [s] is the lower-case ASCII text [p] up to case. *)
Definition ci_eq (s : ustr) (p : string) : Prop := map casefold s = of_string p.

(** The shape of an accepted URL in the words of the specification: an
    optional scheme, an optional [www.], one of the two hosts, a slash and
    a non-empty remainder. *)
Definition url_shape (url : ustr) (rest_ok : ustr -> Prop) : Prop :=
  exists scheme www host rest,
    url = scheme ++ www ++ host ++ of_string "/" ++ rest
    /\ (scheme = [] \/ ci_eq scheme "http://" \/ ci_eq scheme "https://")
    /\ (www = [] \/ ci_eq www "www.")
    /\ (ci_eq host "youtube.com" \/ ci_eq host "youtu.be")
    /\ rest_ok rest.

Definition spec_accepts (url : ustr) : Prop :=
  url_shape url (fun rest => rest <> []).

(** The same with a remainder that does not start with a line feed. *)
Definition spec_accepts_no_lf (url : ustr) : Prop :=
  url_shape url (fun rest => exists x rest', rest = x :: rest' /\ x <> 10).

(** The characters of the literals of [YOUTUBE_URL_RE]. *)
Definition alphabet : ustr := of_string "htps:/w.youbecm".

End Regex.

(** ** The retrieval-and-stream pipeline: [download_youtube] *)

Module Download.

Import Regex.

(** *** Path helpers *)

(** [s.rsplit(".", 1)[0]]: what precedes the last dot, the whole string
    when it has none. *)
Fixpoint before_last_dot (s : string) : option string :=
  match s with
  | EmptyString => None
  | String c s' =>
      match before_last_dot s' with
      | Some h => Some (String c h)
      | None => if Ascii.eqb c "." then Some EmptyString else None
      end
  end.

Definition rsplit_dot_head (s : string) : string :=
  default s (before_last_dot s).

(** [os.path.basename]: what follows the last slash. *)
Fixpoint basename (s : string) : string :=
  match s with
  | EmptyString => EmptyString
  | String c s' =>
      if existsb (Ascii.eqb "/") (list_ascii_of_string s') then basename s'
      else if Ascii.eqb c "/" then s' else s
  end.

(** [os.path.join(a, b)] for a relative [b]. *)
Definition path_join (a b : string) : string :=
  match a with
  | EmptyString => b
  | _ =>
      if String.eqb (substring (String.length a - 1) 1 a) "/"
      then a +:+ b else a +:+ "/" +:+ b
  end.

(** *** The environment *)

Record ydl_opts := mkOpts {
  quiet : bool;
  noprogress : bool;
  outtmpl : string;
  restrictfilenames : bool;
  format : string;
  merge_output_format : string
}.

(** What the handler reads of the [info] dict: [info.get("ext")], and the
    path [ydl.prepare_filename(info)] derives from it. *)
Record info := mkInfo {
  info_ext : option string;
  prepared_filename : string
}.

(** Everything outside the handler that decides its behaviour. *)
Record env := mkEnv {
  import_yt_dlp : res unit;                       (* [import yt_dlp] *)
  mkdtemp : res string;                           (* [tempfile.mkdtemp(prefix="yt_")] *)
  extract_info : ustr -> ydl_opts -> res info;    (* the engine, [download=True] *)
  path_exists : string -> bool;                   (* [os.path.exists], after the engine ran *)
  file_open : string -> res (list byte);          (* [open(path, "rb")]: the content *)
  file_read : nat -> res unit;                    (* whether the n-th [f.read] raises *)
  os_remove : string -> res unit;
  os_rmdir : string -> res unit
}.

(** The effects of a job, in the order they happen. *)
Inductive event :=
| EImport
| EMkdtemp (dir : string)            (* a scratch directory was created *)
| EEngine (url : ustr) (o : ydl_opts)
| EExists (path : string)
| EOpen (path : string)
| ERead (path : string)
| ECloseFile (path : string)
| ERemove (path : string)            (* [os.remove] was attempted *)
| ERmdir (dir : string).             (* [os.rmdir] was attempted *)

(** *** The generator [file_iterator] *)

(** [1024 * 1024] *)
Definition CHUNK_SIZE : nat := Z.to_nat (1024 * 1024).

Inductive gen_state :=
| GCreated (path tmpdir : string)
    (* the generator object exists, its body has not been entered *)
| GSuspended (path tmpdir : string) (rest : list byte) (reads : nat)
    (* suspended at [yield], the file is open *)
| GFinished.

Inductive gen_result :=
| Yield (chunk : list byte)
| StopIteration
| GenRaise (e : pyexn)
| Closed.

(** [try: ... except Exception: pass] *)
Definition try_except_pass (r : res unit) : res unit :=
  match r with
  | inl _ => ret tt
  | inr u => ret u
  end.

(** The [finally] block of [file_iterator]. *)
Definition cleanup (w : env) (path tmpdir : string) : res unit * list event :=
  let r :=
    try! _ := try_except_pass (os_remove w path) in
    try_except_pass (os_rmdir w tmpdir) in
  (r, [ERemove path; ERmdir tmpdir]).

(** [try: body finally: cleanup]: the block ends the way [body] ended unless
    the [finally] block itself raises. *)
Definition finally (w : env) (path tmpdir : string) (body : gen_result)
  : gen_result * list event :=
  let '(r, evs) := cleanup w path tmpdir in
  (match r with inl e => GenRaise e | inr _ => body end, evs).

(** One turn of the [while True] loop, the file being open. *)
Definition read_loop (w : env) (path tmpdir : string) (rest : list byte)
  (reads : nat) : gen_result * gen_state * list event :=
  match file_read w reads with
  | inl e =>
      let '(r, evs) := finally w path tmpdir (GenRaise e) in
      (r, GFinished, ERead path :: ECloseFile path :: evs)
  | inr _ =>
      match firstn CHUNK_SIZE rest with
      | [] =>
          let '(r, evs) := finally w path tmpdir StopIteration in
          (r, GFinished, ERead path :: ECloseFile path :: evs)
      | chunk =>
          (Yield chunk, GSuspended path tmpdir (skipn CHUNK_SIZE rest) (S reads),
           [ERead path])
      end
  end.

(** [next(gen)] *)
Definition gen_next (w : env) (g : gen_state)
  : gen_result * gen_state * list event :=
  match g with
  | GCreated path tmpdir =>
      match file_open w path with
      | inl e =>
          let '(r, evs) := finally w path tmpdir (GenRaise e) in
          (r, GFinished, EOpen path :: evs)
      | inr content =>
          let '(r, g', evs) := read_loop w path tmpdir content 0 in
          (r, g', EOpen path :: evs)
      end
  | GSuspended path tmpdir rest reads => read_loop w path tmpdir rest reads
  | GFinished => (StopIteration, GFinished, [])
  end.

(** [gen.close()], also what finalising a dropped generator does:
    [GeneratorExit] is raised at the [yield] where the generator is
    suspended; a generator whose body was never entered just ends. *)
Definition gen_close (w : env) (g : gen_state)
  : gen_result * gen_state * list event :=
  match g with
  | GCreated _ _ => (Closed, GFinished, [])
  | GSuspended path tmpdir _ _ =>
      let '(r, evs) := finally w path tmpdir Closed in
      (r, GFinished, ECloseFile path :: evs)
  | GFinished => (Closed, GFinished, [])
  end.

(** What the framework does with the body iterator of a response. *)
Inductive action := Next | Close.

Definition gen_step (w : env) (a : action) (g : gen_state) :=
  match a with
  | Next => gen_next w g
  | Close => gen_close w g
  end.

Fixpoint drive (w : env) (g : gen_state) (acts : list action)
  : list gen_result * gen_state * list event :=
  match acts with
  | [] => ([], g, [])
  | a :: acts' =>
      let '(r, g', evs) := gen_step w a g in
      let '(rs, g'', evs') := drive w g' acts' in
      (r :: rs, g'', evs ++ evs')
  end.

(** *** The handler *)

Record StreamingResponse := mkResponse {
  body_iterator : gen_state;
  media_type : string;
  headers : list (string * string)
}.

Inductive outcome :=
| Raised (e : HTTPException)          (* the handler raised [HTTPException] *)
| Escaped (e : pyexn)                 (* an exception left the handler *)
| Streaming (r : StreamingResponse).

Definition dquote : string := String (ascii_of_nat 34) EmptyString.

Definition make_opts (tmpdir : string) : ydl_opts :=
  mkOpts true true (path_join tmpdir "%(title).200B.%(ext)s") true
         "bv*[ext=mp4]+ba[ext=m4a]/b[ext=mp4]/b/bestaudio+bv*" "mp4".

(** [run_download()] *)
Definition run_download (w : env) (url : ustr) (o : ydl_opts)
  : res string * list event :=
  match extract_info w url o with
  | inl e => (raise e, [EEngine url o])
  | inr i =>
      let filepath := prepared_filename i in
      let merged := rsplit_dot_head filepath +:+ ".mp4" in
      if negb (bool_decide (info_ext i = Some "mp4")) then
        if path_exists w merged
        then (ret merged, [EEngine url o; EExists merged])
        else (ret filepath, [EEngine url o; EExists merged])
      else (ret filepath, [EEngine url o])
  end.

(** The two [except] clauses that close the handler. *)
Definition handle (e : pyexn) : HTTPException :=
  match e with
  | DownloadError _ => mkHTTP 400 (DFmt "Download error: " e)
  | _ => mkHTTP 500 (DStr e)
  end.

Definition download_youtube (w : env) (url : ustr) : outcome * list event :=
  if negb (re_match YOUTUBE_URL_RE url) then
    (Raised (mkHTTP 400 (DLit "Please provide a valid YouTube URL")), [])
  else
    match import_yt_dlp w with
    | inl e => (Raised (mkHTTP 500 (DFmt "Downloader unavailable: " e)), [EImport])
    | inr _ =>
        match mkdtemp w with
        | inl e => (Escaped e, [EImport])
        | inr tmpdir =>
            let '(r, evs) := run_download w url (make_opts tmpdir) in
            let pre := EImport :: EMkdtemp tmpdir :: evs in
            match r with
            | inl e => (Raised (handle e), pre)
            | inr filepath =>
                if negb (path_exists w filepath) then
                  (Raised (handle (RaisedHTTP 500 "Failed to download video")),
                   pre ++ [EExists filepath])
                else
                  let filename := basename filepath in
                  let hdrs :=
                    [("Content-Disposition",
                      "attachment; filename=" +:+ dquote +:+ filename +:+ dquote)] in
                  (Streaming (mkResponse (GCreated filepath tmpdir) "video/mp4" hdrs),
                   pre ++ [EExists filepath])
            end
        end
    end.

(** A whole job: the handler, then the framework driving the body of the
    response with [acts]. *)
Definition run_job (w : env) (url : ustr) (acts : list action)
  : outcome * list gen_result * list event :=
  let '(o, evs) := download_youtube w url in
  match o with
  | Streaming r =>
      let '(rs, _, evs') := drive w (body_iterator r) acts in
      (o, rs, evs ++ evs')
  | _ => (o, [], evs)
  end.

(** The effects the claims count. *)
Definition is_mkdtemp (e : event) : bool :=
  match e with EMkdtemp _ => true | _ => false end.

Definition is_engine (e : event) : bool :=
  match e with EEngine _ _ => true | _ => false end.

Definition is_remove (e : event) : bool :=
  match e with ERemove _ => true | _ => false end.

Definition is_rmdir (e : event) : bool :=
  match e with ERmdir _ => true | _ => false end.

Definition count (p : event -> bool) (t : list event) : nat :=
  length (filter (fun e => p e = true) t).

(** The text of a detail, where the message of the exception is part of the
    model. *)
Definition exn_message (e : pyexn) : option string :=
  match e with
  | DownloadError m | ImportError m | OSError m | OtherException m => Some m
  | _ => None
  end.

Definition detail_text (d : detail) : option string :=
  match d with
  | DLit s => Some s
  | DStr e => exn_message e
  | DFmt p e => (fun m => p +:+ m) <$> exn_message e
  end.

(** *** Vocabulary of the statements *)

(** The rejection of a URL by the validation step. *)
Definition invalid_url : HTTPException :=
  mkHTTP 400 (DLit "Please provide a valid YouTube URL").

(** The endpoint accepts [url]: the validation step lets it through. *)
Definition accepts (w : env) (url : ustr) : Prop :=
  (download_youtube w url).1 <> Raised invalid_url.

(** The cleanup attempts of a trace, in order. *)
Definition cleanup_events (t : list event) : list event :=
  List.filter (fun e => is_remove e || is_rmdir e) t.


(** The error an operation of the generator raises comes from opening or
    reading the file. *)
Definition io_error (w : env) (path : string) (r : gen_result) : Prop :=
  match r with
  | GenRaise e => file_open w path = inl e \/ exists n, file_read w n = inl e
  | _ => True
  end.

(** The state of a job whose generator was started: finished after one
    cleanup (removal of the file, then of the directory), or suspended with
    no cleanup so far. *)
Definition stream_state (path tmpdir : string) (g : gen_state)
  (t : list event) : Prop :=
  (g = GFinished /\ cleanup_events t = [ERemove path; ERmdir tmpdir])
  \/ ((exists rest n, g = GSuspended path tmpdir rest n) /\ cleanup_events t = []).

End Download.

(** ** Concrete inputs *)

Module Examples.

Import Leaderboard Regex Download.

(** The two submissions of the scenario of section 8. *)
Definition ana : ScoreIn := mkScoreIn "Ana" 100 2 5000.
Definition bo : ScoreIn := mkScoreIn "Bo" 100 1 3000.

Definition store_ana_bo : list doc :=
  create_document (create_document [] ana) bo.

(** A document whose [points] is not numeric. *)
Definition doc_bad_points : doc :=
  <["name" := PStr "Eve"]> (<["points" := PStr "abc"]>
  (<["duration_ms" := PInt 10]> ∅)).

(** A document without [duration_ms], [name] and [level]. *)
Definition doc_missing : doc := <["points" := PInt 5]> ∅.

(** Documents of the same points, one faster and one slower than the
    default duration. *)
Definition doc_fast : doc :=
  <["name" := PStr "Fay"]> (<["points" := PInt 5]>
  (<["level" := PInt 3]> (<["duration_ms" := PInt 4000]> ∅))).

Definition doc_slow : doc :=
  <["name" := PStr "Sam"]> (<["points" := PInt 5]>
  (<["level" := PInt 3]> (<["duration_ms" := PInt 2000000]> ∅))).

(** URLs. *)
Definition url_example : ustr := of_string "https://example.com/video".
Definition url_watch : ustr := of_string "https://www.youtube.com/watch?v=abc".
Definition url_line_feed : ustr := of_string "youtube.com/" ++ [10%N].

(** Environments of a download job. *)
Definition video_path : string := "/tmp/yt_k3/clip.mp4".

Definition env_ok : env :=
  mkEnv (inr tt) (inr "/tmp/yt_k3")
        (fun _ _ => inr (mkInfo (Some "mp4") video_path))
        (String.eqb video_path)
        (fun _ => inr [Byte.x41; Byte.x42; Byte.x43])
        (fun _ => inr tt) (fun _ => inr tt) (fun _ => inr tt).

(** The engine fails to fetch. *)
Definition env_fetch_fails : env :=
  mkEnv (inr tt) (inr "/tmp/yt_k3")
        (fun _ _ => inl (DownloadError "ERROR: Video unavailable"))
        (fun _ => false) (fun _ => inl (OSError "no such file"))
        (fun _ => inr tt) (fun _ => inr tt) (fun _ => inr tt).

(** The engine reports a file that does not exist. *)
Definition env_missing_file : env :=
  mkEnv (inr tt) (inr "/tmp/yt_k3")
        (fun _ _ => inr (mkInfo (Some "mp4") video_path))
        (fun _ => false) (fun _ => inl (OSError "no such file"))
        (fun _ => inr tt) (fun _ => inr tt) (fun _ => inr tt).

(** The engine is not installed. *)
Definition env_no_engine : env :=
  mkEnv (inl (ImportError "No module named yt_dlp")) (inr "/tmp/yt_k3")
        (fun _ _ => inr (mkInfo (Some "mp4") video_path))
        (String.eqb video_path)
        (fun _ => inr [Byte.x41]) (fun _ => inr tt)
        (fun _ => inr tt) (fun _ => inr tt).


End Examples.

(** ** The diagnostics endpoint: [test_database] *)

Module Diagnostics.

Import Regex.

(** The values of the response: [None], a string, a list, or some other
    object (what [db.name] may hold). *)
Inductive jval :=
| JNone
| JStr (s : ustr)
| JList (l : list ustr)
| JObject (id : N).

(** The attribute [name] of the database handle: absent, present, or
    raising something else than [AttributeError] when looked up. *)
Inductive attr :=
| AttrMissing
| AttrValue (v : jval)
| AttrRaises (msg : ustr).

(** The handle [db] of the [database] module, as far as the endpoint looks
    at it; [inl msg] is an exception whose [str()] is [msg]. *)
Record database := mkDatabase {
  name_attr : attr;
  list_collection_names : ustr + list ustr
}.

(** The marks of the messages: U+2705, U+274C, and U+26A0 U+FE0F. *)
Definition check_mark : ustr := [9989%N].
Definition cross_mark : ustr := [10060%N].
Definition warning_sign : ustr := [9888%N; 65039%N].

(** Truth value of [os.getenv(k)]: set, and not to the empty string. *)
Definition truthy (v : option ustr) : bool :=
  match v with
  | Some (_ :: _) => true
  | _ => false
  end.

Definition set_or_not (v : option ustr) : jval :=
  JStr (if truthy v then check_mark ++ of_string " Set"
        else cross_mark ++ of_string " Not Set").

(** The response as first built. *)
Definition initial_response : gmap string jval :=
  <["backend" := JStr (check_mark ++ of_string " Running")]>
  (<["database" := JStr (cross_mark ++ of_string " Not Available")]>
  (<["database_url" := JNone]>
  (<["database_name" := JNone]>
  (<["connection_status" := JStr (of_string "Not Connected")]>
  (<["collections" := JList []]> ∅))))).

(** The inner [try] block, and its [except]. *)
Definition list_collections (d : database) (response : gmap string jval)
  : gmap string jval :=
  match list_collection_names d with
  | inr collections =>
      <["database" := JStr (check_mark ++ of_string " Connected & Working")]>
      (<["collections" := JList (slice_to collections 10)]> response)
  | inl msg =>
      <["database" := JStr (warning_sign ++ of_string "  Connected but Error: "
                              ++ slice_to msg 50)]> response
  end.

(** The outer [try] block, and its [except]. *)
Definition probe_database (db : option database) (response : gmap string jval)
  : gmap string jval :=
  match db with
  | Some d =>
      let response :=
        <["database" := JStr (check_mark ++ of_string " Available")]> response in
      let response :=
        <["database_url" := JStr (check_mark ++ of_string " Configured")]> response in
      match name_attr d with
      | AttrRaises msg =>
          <["database" := JStr (cross_mark ++ of_string " Error: "
                                  ++ slice_to msg 50)]> response
      | a =>
          let name :=
            match a with
            | AttrValue v => v
            | _ => JStr (check_mark ++ of_string " Connected")
            end in
          let response := <["database_name" := name]> response in
          let response :=
            <["connection_status" := JStr (of_string "Connected")]> response in
          list_collections d response
      end
  | None =>
      <["database" := JStr (warning_sign
                              ++ of_string "  Available but not initialized")]>
        response
  end.

(** [test_database()], [getenv] being [os.getenv]. *)
Definition test_database (db : option database) (getenv : string -> option ustr)
  : gmap string jval :=
  let response := probe_database db initial_response in
  let response :=
    <["database_url" := set_or_not (getenv "DATABASE_URL")]> response in
  <["database_name" := set_or_not (getenv "DATABASE_NAME")]> response.

(** The database can be used: the handle exists and looking up its name
    does not raise. *)
Definition reachable (db : option database) : Prop :=
  exists d, db = Some d /\ forall msg, name_attr d <> AttrRaises msg.

End Diagnostics.

(** ** Further concrete inputs *)

Module MoreExamples.

Import Regex Download.

(** A document whose [level] is [None]. *)
Definition doc_bad_level : doc :=
  <["name" := PStr "Lee"]> (<["points" := PInt 1]>
  (<["level" := PNone]> (<["duration_ms" := PInt 7]> ∅))).

(** The engine downloaded separate streams and merged them: it reports
    the extension webm, and the merged .mp4 file exists. *)
Definition env_merged : env :=
  mkEnv (inr tt) (inr "/tmp/yt_k3")
        (fun _ _ => inr (mkInfo (Some "webm") "/tmp/yt_k3/clip.webm"))
        (String.eqb "/tmp/yt_k3/clip.mp4")
        (fun _ => inr [Byte.x41])
        (fun _ => inr tt) (fun _ => inr tt) (fun _ => inr tt).

(** A database with twelve collections, and one whose listing fails. *)
Definition db_many : Diagnostics.database :=
  Diagnostics.mkDatabase (Diagnostics.AttrValue (Diagnostics.JStr (of_string "game")))
    (inr (map (fun n => [n])
            [97; 98; 99; 100; 101; 102; 103; 104; 105; 106; 107; 108]%N)).

Definition db_listing_fails : Diagnostics.database :=
  Diagnostics.mkDatabase Diagnostics.AttrMissing (inl (of_string "timeout")).

(** A document whose [points] is a string of 4301 digits, one more than
    [int()] accepts, and one whose [points] is a no-break space followed by
    the full-width digit seven. *)
Definition doc_long_points : doc :=
  <["points" := PText (repeat 49%N 4301)]> (<["duration_ms" := PInt 10]> ∅).

Definition doc_wide_points : doc :=
  <["points" := PText [160%N; 65303%N]]> (<["duration_ms" := PInt 10]> ∅).

End MoreExamples.

(** ** Further vocabulary for the ranking query *)

Module Ranking.

Import Leaderboard.

(** The document [d] has the comparison key [k]. *)
Definition same_key (k : key) (d : doc) : bool :=
  ((spec_key d).1 =? k.1) && ((spec_key d).2 =? k.2).



(** The exceptions [int()] raises. *)
Definition is_int_error (e : pyexn) : bool :=
  match e with
  | ValueError_literal _ | ValueError_max_digits _ | ValueError_int_nan
  | OverflowError_int_inf | TypeError_int _ => true
  | _ => false
  end.

(** The number of elements of [l[:stop]] for a list of [n] elements. *)
Definition slice_length (n stop : Z) : Z :=
  if stop <? 0 then Z.max 0 (n + stop) else Z.min stop n.

End Ranking.

(** ** Further vocabulary for the pipeline *)

Module Pipeline.

Import Download.

(** The string has no slash. *)
Definition no_slash (s : string) : Prop :=
  ~ In "/"%char (list_ascii_of_string s).

(** The events a generator produces: it opens, reads, closes and removes,
    it never imports, creates a directory, runs the engine or probes a
    path. *)
Definition is_stream_event (e : event) : bool :=
  match e with
  | EOpen _ | ERead _ | ECloseFile _ | ERemove _ | ERmdir _ => true
  | _ => false
  end.

(** A probe of a path. *)
Definition is_probe (e : event) : bool :=
  match e with
  | EExists _ => true
  | _ => false
  end.

(** The header of a response that carries the file name [name]. *)
Definition disposition (name : string) : string * string :=
  ("Content-Disposition", "attachment; filename=" +:+ dquote +:+ name +:+ dquote).

(** All chunks but the last have the full size. *)
Fixpoint full_but_last (chunks : list (list byte)) : Prop :=
  match chunks with
  | [] => True
  | c :: rest =>
      match rest with
      | [] => True
      | _ => length c = CHUNK_SIZE /\ full_but_last rest
      end
  end.

End Pipeline.

(** * Properties *)

Import Leaderboard Regex Download Examples.

(** ** The error monad and the slice *)

Lemma bind_inr {A B} (m : res A) (k : A -> res B) (b : B) :
  bind m k = inr b -> exists a, m = inr a /\ k a = inr b.
Proof. destruct m as [e|a]; simpl; [discriminate | eauto]. Qed.

Lemma bind_inl {A B} (m : res A) (k : A -> res B) (e : pyexn) :
  bind m k = inl e -> m = inl e \/ exists a, m = inr a /\ k a = inl e.
Proof. destruct m as [e'|a]; simpl; [intros [= ->]; auto | eauto]. Qed.

Section Monad.

Context {A B : Type}.

Lemma mapM_inr (f : A -> res B) (l : list A) (ys : list B) :
  mapM f l = inr ys -> Forall2 (fun x y => f x = inr y) l ys.
Proof.
  revert ys; induction l as [|x l IH]; simpl; intros ys H.
  - injection H as <-. constructor.
  - apply bind_inr in H as (y & Hy & H).
    apply bind_inr in H as (ys' & Hys & H).
    injection H as <-. constructor; auto.
Qed.

Lemma mapM_total (f : A -> res B) (l : list A) :
  Forall (fun x => exists y, f x = inr y) l -> exists ys, mapM f l = inr ys.
Proof.
  induction 1 as [|x l [y Hy] _ [ys Hys]]; simpl.
  - eexists; reflexivity.
  - rewrite Hy, Hys. simpl. eexists; reflexivity.
Qed.

Lemma mapM_raises (f : A -> res B) (l : list A) :
  Exists (fun x => exists e, f x = inl e) l -> exists e, mapM f l = inl e.
Proof.
  induction 1 as [x l [e He]|x l _ [e He]]; simpl.
  - rewrite He. simpl. eauto.
  - destruct (f x) as [e'|y]; simpl; [eauto|].
    rewrite He. simpl. eauto.
Qed.

End Monad.

Section Slice.

Context {A : Type}.

Lemma slice_to_firstn (l : list A) (stop : Z) :
  exists n, slice_to l stop = firstn n l.
Proof. unfold slice_to. eauto. Qed.

Lemma slice_to_length_pos (l : list A) (stop : Z) :
  0 <= stop ->
  Z.of_nat (length (slice_to l stop)) = Z.min stop (Z.of_nat (length l)).
Proof.
  intros H. unfold slice_to.
  destruct (Z.ltb_spec stop 0); [lia|].
  rewrite length_firstn. lia.
Qed.




End Slice.

(** ** The stable sort *)

Lemma key_lt_spec (a b : key) :
  key_lt a b = true <-> a.1 < b.1 \/ (a.1 = b.1 /\ a.2 < b.2).
Proof. unfold key_lt. destruct a, b; simpl. lia. Qed.

Lemma key_le_spec (a b : key) :
  key_le a b = true <-> a.1 < b.1 \/ (a.1 = b.1 /\ a.2 <= b.2).
Proof.
  unfold key_le. rewrite negb_true_iff, <- not_true_iff_false, key_lt_spec.
  destruct a, b; simpl. lia.
Qed.

Lemma key_le_trans (a b c : key) :
  key_le a b = true -> key_le b c = true -> key_le a c = true.
Proof. rewrite !key_le_spec. lia. Qed.

Lemma key_lt_le (a b : key) : key_lt a b = true -> key_le a b = true.
Proof. rewrite key_lt_spec, key_le_spec. lia. Qed.

Lemma key_nlt_le (a b : key) : key_lt a b = false -> key_le b a = true.
Proof. unfold key_le. intros ->. reflexivity. Qed.

Section Sorting.

Context {A : Type}.
Implicit Types (x y : key * A) (l : list (key * A)).

Lemma insert_keyed_perm x l : Permutation (insert_keyed x l) (x :: l).
Proof.
  induction l as [|y l IH]; simpl; [reflexivity|].
  destruct (key_lt y.1 x.1); [|reflexivity].
  rewrite IH. apply perm_swap.
Qed.

Lemma sort_keyed_perm l : Permutation (sort_keyed l) l.
Proof.
  induction l as [|x l IH]; simpl; [reflexivity|].
  rewrite insert_keyed_perm. constructor. exact IH.
Qed.

Lemma sort_keyed_length l : length (sort_keyed l) = length l.
Proof. apply Permutation_length, sort_keyed_perm. Qed.

Lemma insert_keyed_sorted x l :
  StronglySorted keyed_le l -> StronglySorted keyed_le (insert_keyed x l).
Proof.
  induction 1 as [|y l Hs IH Hy]; simpl.
  - repeat constructor.
  - destruct (key_lt y.1 x.1) eqn:E.
    + constructor; [exact IH|].
      eapply Permutation_Forall; [symmetry; apply insert_keyed_perm|].
      constructor; [apply key_lt_le, E | exact Hy].
    + apply key_nlt_le in E.
      constructor; [constructor; assumption|].
      constructor; [exact E|].
      eapply Forall_impl; [exact Hy|].
      intros z Hz. eapply key_le_trans; eassumption.
Qed.

Lemma sort_keyed_sorted l : StronglySorted keyed_le (sort_keyed l).
Proof.
  induction l as [|x l IH]; simpl; [constructor|].
  apply insert_keyed_sorted, IH.
Qed.

(** Stability: the elements of any one key keep their order. *)
Lemma insert_keyed_stable k x l :
  List.filter (has_key k) (insert_keyed x l) = List.filter (has_key k) (x :: l).
Proof.
  induction l as [|y l IH]; [reflexivity|].
  cbn [insert_keyed]. destruct (key_lt y.1 x.1) eqn:E; [|reflexivity].
  cbn [List.filter] in *. rewrite IH.
  apply key_lt_spec in E.
  unfold has_key. destruct x as [[x1 x2] ?], y as [[y1 y2] ?], k as [k1 k2].
  simpl in *.
  destruct (Z.eqb_spec y1 k1), (Z.eqb_spec y2 k2), (Z.eqb_spec x1 k1),
    (Z.eqb_spec x2 k2); simpl; try reflexivity; lia.
Qed.

Lemma sort_keyed_stable k l :
  List.filter (has_key k) (sort_keyed l) = List.filter (has_key k) l.
Proof.
  induction l as [|x l IH]; [reflexivity|].
  cbn [sort_keyed]. rewrite insert_keyed_stable.
  cbn [List.filter]. rewrite IH. reflexivity.
Qed.

End Sorting.

(** ** Generic facts on sorted lists *)

Section SortedFacts.

Context {A B : Type}.

Lemma StronglySorted_firstn (R : A -> A -> Prop) (n : nat) (l : list A) :
  StronglySorted R l -> StronglySorted R (firstn n l).
Proof.
  intros H; revert n; induction H as [|x l Hs IH Hx]; intros [|n]; simpl;
    try constructor; auto.
  apply List.Forall_forall. intros y Hy.
  rewrite List.Forall_forall in Hx. apply Hx.
  rewrite <- (firstn_skipn n l). apply in_or_app; auto.
Qed.

Lemma StronglySorted_Forall2 (R : A -> A -> Prop) (R' : B -> B -> Prop)
  (Q : A -> B -> Prop) (l : list A) (l' : list B) :
  (forall a1 a2 b1 b2, In a1 l -> In a2 l -> R a1 a2 -> Q a1 b1 -> Q a2 b2 -> R' b1 b2) ->
  StronglySorted R l -> Forall2 Q l l' -> StronglySorted R' l'.
Proof.
  intros HR Hs HQ; revert HR Hs.
  induction HQ as [|a b l l' Hab HQ IH]; intros HR Hs; [constructor|].
  inversion Hs as [|? ? Hs' Ha]; subst.
  constructor.
  - apply IH; [|exact Hs'].
    intros; eapply HR; eauto; right; assumption.
  - rewrite List.Forall_forall in Ha.
    clear IH Hs Hs'. induction HQ as [|a' b' m m' Hab' HQ IH]; constructor.
    + eapply (HR a a' b b'); auto; [left; reflexivity|right; left; reflexivity|].
      apply Ha. left; reflexivity.
    + apply IH.
      * intros a1 a2 b1 b2 H1 H2. apply HR.
        -- destruct H1; [left; assumption|right; right; assumption].
        -- destruct H2; [left; assumption|right; right; assumption].
      * intros z Hz. apply Ha. right; assumption.
Qed.

Lemma StronglySorted_map (R : B -> B -> Prop) (f : A -> B) (l : list A) :
  StronglySorted (fun a1 a2 => R (f a1) (f a2)) l -> StronglySorted R (map f l).
Proof.
  induction 1 as [|x l Hs IH Hx]; simpl; constructor; [exact IH|].
  apply List.Forall_forall. intros y Hy. apply in_map_iff in Hy as (z & <- & Hz).
  rewrite List.Forall_forall in Hx. auto.
Qed.

End SortedFacts.

Lemma StronglySorted_strengthen {A} (R R' : A -> A -> Prop) (P : A -> Prop)
  (l : list A) :
  (forall a b, P a -> P b -> R a b -> R' a b) ->
  Forall P l -> StronglySorted R l -> StronglySorted R' l.
Proof.
  intros HR HP Hs. induction Hs as [|x l Hs IH Hx]; [constructor|].
  inversion HP as [|? ? Px Pl]; subst.
  constructor; [auto|].
  rewrite List.Forall_forall in *. intros y Hy. auto.
Qed.

Lemma StronglySorted_lookup {A} (R : A -> A -> Prop) (l : list A)
  (i j : nat) (a b : A) :
  StronglySorted R l -> l !! i = Some a -> l !! j = Some b -> (i < j)%nat ->
  R a b.
Proof.
  intros Hs; revert i j. induction Hs as [|x l Hs IH Hx]; intros i j Hi Hj Hlt.
  - discriminate.
  - destruct j as [|j]; [lia|]. destruct i as [|i]; simpl in *.
    + injection Hi as ->. rewrite List.Forall_forall in Hx.
      apply Hx. apply list_elem_of_In. eapply list_elem_of_lookup_2; eassumption.
    + eapply IH; eauto. lia.
Qed.

(** ** The ranking query *)

Section LeaderboardFacts.

Implicit Types (d : doc) (docs ds : list doc) (limit : option Z).

Lemma decorate_spec {A} (f : A -> res key) (l : list A) kl :
  decorate f l = inr kl ->
  map snd kl = l /\ Forall (fun kd => f kd.2 = inr kd.1) kl.
Proof.
  unfold decorate. revert kl; induction l as [|x l IH]; simpl; intros kl H.
  - injection H as <-. split; constructor.
  - apply bind_inr in H as (y & Hy & H).
    apply bind_inr in H as (ys & Hys & H). injection H as <-.
    apply bind_inr in Hy as (k & Hk & Hy). injection Hy as <-.
    destruct (IH _ Hys) as [E F]. simpl. split; [congruence|].
    constructor; assumption.
Qed.

Lemma decorate_total {A} (f : A -> res key) (l : list A) :
  Forall (fun x => exists k, f x = inr k) l -> exists kl, decorate f l = inr kl.
Proof.
  intros H. apply mapM_total.
  eapply List.Forall_impl; [|exact H].
  intros x [k ->]. simpl. eauto.
Qed.

(** What a successful call computed. *)
Lemma get_leaderboard_Ok docs limit items :
  get_leaderboard (ret docs) limit = Ok items <->
  exists kl, decorate sort_key docs = inr kl
    /\ mapM entry_of
         (slice_to (map snd (sort_keyed kl)) (default default_limit limit))
       = inr items.
Proof.
  unfold get_leaderboard, sorted. simpl.
  destruct (decorate sort_key docs) as [e|kl]; simpl.
  - split; [discriminate|]. intros (kl & [=] & _).
  - destruct (mapM entry_of _) as [e|top] eqn:E.
    + split; [discriminate|]. intros (kl' & [= <-] & H). congruence.
    + split.
      * intros [= <-]. eauto.
      * intros (kl' & [= <-] & H). congruence.
Qed.

(** A failed call is an HTTP 500 carrying the text of the exception. *)
Lemma get_leaderboard_Failed get_documents limit h :
  get_leaderboard get_documents limit = Failed h ->
  exists e, h = mkHTTP 500 (DStr e).
Proof.
  unfold get_leaderboard.
  destruct (bind get_documents _) as [e|top]; [|discriminate].
  intros [= <-]. eauto.
Qed.

Lemma field_ok_int d k z :
  field_ok d k = true -> exists n, int (get d k (PInt z)) = inr n.
Proof.
  unfold field_ok, get, convertible.
  destruct (d !! k) as [v|]; simpl; [|eauto].
  destruct (int v) as [e|n]; [discriminate|eauto].
Qed.

Lemma int_get_coerced d k z n :
  int (get d k (PInt z)) = inr n -> n = coerced d k z.
Proof.
  unfold get, coerced. destruct (d !! k) as [v|]; simpl.
  - intros ->. reflexivity.
  - intros [= <-]. reflexivity.
Qed.

Lemma sort_key_spec d k : sort_key d = inr k -> k = spec_key d.
Proof.
  unfold sort_key. intros H.
  apply bind_inr in H as (p & Hp & H). apply bind_inr in H as (t & Ht & H).
  injection H as <-.
  apply int_get_coerced in Hp, Ht. unfold spec_key, spec_points, spec_duration.
  congruence.
Qed.

Lemma well_formed_fields d :
  well_formed d = true ->
  field_ok d "points" = true /\ field_ok d "level" = true
  /\ field_ok d "duration_ms" = true.
Proof. unfold well_formed. rewrite !andb_true_iff. tauto. Qed.

Lemma sort_key_total d : well_formed d = true -> exists k, sort_key d = inr k.
Proof.
  intros (Hp & _ & Ht)%well_formed_fields. unfold sort_key.
  destruct (field_ok_int d "points" 0 Hp) as [p ->].
  destruct (field_ok_int d "duration_ms" 1000000 Ht) as [t ->].
  simpl. eauto.
Qed.

Lemma entry_of_total d : well_formed d = true -> exists e, entry_of d = inr e.
Proof.
  intros (Hp & Hl & Ht)%well_formed_fields. unfold entry_of.
  destruct (field_ok_int d "points" 0 Hp) as [p ->].
  destruct (field_ok_int d "level" 1 Hl) as [l ->].
  destruct (field_ok_int d "duration_ms" 0 Ht) as [t ->].
  simpl. eauto.
Qed.

Lemma entry_of_spec d e :
  entry_of d = inr e ->
  name e = get d "name" (PStr "Player")
  /\ points e = spec_points d
  /\ level e = coerced d "level" 1
  /\ duration_ms e = coerced d "duration_ms" 0.
Proof.
  unfold entry_of. intros H.
  apply bind_inr in H as (p & Hp & H). apply bind_inr in H as (l & Hl & H).
  apply bind_inr in H as (t & Ht & H). injection H as <-.
  apply int_get_coerced in Hp, Hl, Ht. simpl. auto.
Qed.

Lemma key_le_spec_before d1 d2 :
  key_le (spec_key d1) (spec_key d2) = true <-> spec_before d1 d2.
Proof. rewrite key_le_spec. unfold spec_key, spec_before. simpl. lia. Qed.

(** The sorted documents: a permutation of the stored ones, in the order of
    their keys. *)
Lemma sorted_docs kl docs :
  decorate sort_key docs = inr kl ->
  Permutation (map snd (sort_keyed kl)) docs
  /\ StronglySorted spec_before (map snd (sort_keyed kl)).
Proof.
  intros H. destruct (decorate_spec _ _ _ H) as [E F]. split.
  - rewrite <- E. apply Permutation_map, sort_keyed_perm.
  - apply StronglySorted_map.
    eapply (StronglySorted_strengthen keyed_le _
              (fun kd => sort_key kd.2 = inr kd.1)).
    + intros a b Ha Hb Hab. apply sort_key_spec in Ha, Hb.
      apply key_le_spec_before. rewrite <- Ha, <- Hb. exact Hab.
    + eapply Permutation_Forall; [symmetry; apply sort_keyed_perm | exact F].
    + apply sort_keyed_sorted.
Qed.

Lemma get_leaderboard_total docs limit :
  Forall (fun d => well_formed d = true) docs ->
  exists items, get_leaderboard (ret docs) limit = Ok items.
Proof.
  intros H.
  destruct (decorate_total sort_key docs) as [kl Hkl].
  { eapply List.Forall_impl; [|exact H]. apply sort_key_total. }
  destruct (sorted_docs _ _ Hkl) as [Hp _].
  destruct (slice_to_firstn (map snd (sort_keyed kl)) (default default_limit limit))
    as [n Hn].
  destruct (mapM_total entry_of (slice_to (map snd (sort_keyed kl))
                                   (default default_limit limit))) as [items Hi].
  { rewrite Hn. apply List.Forall_forall. intros d Hd.
    apply entry_of_total.
    rewrite List.Forall_forall in H. apply H.
    eapply Permutation_in; [exact Hp|].
    rewrite <- (firstn_skipn n). apply in_or_app. left. exact Hd. }
  exists items. apply get_leaderboard_Ok. eauto.
Qed.

End LeaderboardFacts.

Section LeaderboardClaims.

Implicit Types (d : doc) (docs ds : list doc) (limit : option Z).

Lemma score_record_fields d :
  is_score_record d = true ->
  well_formed d = true /\ coerced d "duration_ms" 0 = spec_duration d.
Proof.
  unfold is_score_record, well_formed, field_ok, spec_duration, coerced.
  destruct (d !! "name") as [[| | | |n|]|]; try discriminate.
  destruct (d !! "points") as [[| |p| | |]|]; try discriminate.
  destruct (d !! "level") as [[| |l| | |]|]; try discriminate.
  destruct (d !! "duration_ms") as [[| |t| | |]|]; try discriminate.
  intros _. split; reflexivity.
Qed.

Lemma text_of_length (s : string) : length (text_of s) = String.length s.
Proof.
  unfold text_of. rewrite length_map.
  induction s as [|c s IH]; simpl; congruence.
Qed.

Lemma to_document_score_record (p : ScoreIn) :
  ScoreIn_valid p = true -> is_score_record (to_document p) = true.
Proof.
  intros H. unfold is_score_record, to_document.
  rewrite lookup_insert_eq.
  rewrite lookup_insert_ne, lookup_insert_eq by discriminate.
  rewrite !lookup_insert_ne, lookup_insert_eq by discriminate.
  rewrite !lookup_insert_ne, lookup_insert_eq by discriminate.
  unfold PStr. rewrite text_of_length. exact H.
Qed.

Lemma mapM_firstn {A B} (f : A -> res B) (l : list A) (ys : list B) (n : nat) :
  mapM f l = inr ys -> mapM f (firstn n l) = inr (firstn n ys).
Proof.
  revert ys n; induction l as [|x l IH]; simpl; intros ys n H.
  - injection H as <-. destruct n; reflexivity.
  - apply bind_inr in H as (y & Hy & H).
    apply bind_inr in H as (ys' & Hys & H). injection H as <-.
    destruct n as [|n]; simpl; [reflexivity|].
    rewrite Hy. simpl. rewrite (IH _ n Hys). reflexivity.
Qed.

(** The number of items of a successful response. *)
Lemma get_leaderboard_length docs (limit : Z) items :
  0 <= limit ->
  get_leaderboard (ret docs) (Some limit) = Ok items ->
  Z.of_nat (length items) = Z.min limit (Z.of_nat (length docs)).
Proof.
  intros Hl (kl & Hkl & Hi)%get_leaderboard_Ok. simpl in Hi.
  apply mapM_inr, Forall2_length in Hi. rewrite <- Hi.
  rewrite slice_to_length_pos by assumption.
  destruct (sorted_docs _ _ Hkl) as [Hp _].
  rewrite (Permutation_length Hp). reflexivity.
Qed.

(** C3: on stored score records the response is ordered by points
    descending and, among equal points, by duration_ms ascending; after the
    submissions of Ana (100 points, 5000 ms) and Bo (100 points, 3000 ms)
    the leaderboard lists Bo before Ana. *)
Theorem C3_leaderboard_ranked :
  (forall docs limit,
      Forall (fun d => is_score_record d = true) docs ->
      exists items,
        get_leaderboard (ret docs) limit = Ok items /\ ranked items)
  /\ get_leaderboard (ret store_ana_bo) (Some 10)
     = Ok [mkEntry (PStr "Bo") 100 1 3000; mkEntry (PStr "Ana") 100 2 5000].
Proof.
  split; [|reflexivity].
  intros docs limit Hrec.
  destruct (get_leaderboard_total docs limit) as [items Hitems].
  { eapply List.Forall_impl; [|exact Hrec]. intros d Hd.
    apply score_record_fields, Hd. }
  exists items. split; [exact Hitems|].
  apply get_leaderboard_Ok in Hitems as (kl & Hkl & Hi).
  destruct (sorted_docs _ _ Hkl) as [Hp Hs].
  destruct (slice_to_firstn (map snd (sort_keyed kl)) (default default_limit limit))
    as [n Hn].
  rewrite Hn in Hi. apply mapM_inr in Hi.
  unfold ranked.
  eapply (StronglySorted_Forall2 spec_before outranks); [| |exact Hi].
  - intros d1 d2 e1 e2 H1 H2 Hb He1 He2.
    assert (Hin : forall d, In d (firstn n (map snd (sort_keyed kl))) ->
                            is_score_record d = true).
    { intros d Hd. rewrite List.Forall_forall in Hrec. apply Hrec.
      eapply Permutation_in; [exact Hp|].
      rewrite <- (firstn_skipn n). apply in_or_app. left. exact Hd. }
    apply Hin, score_record_fields in H1 as [_ D1].
    apply Hin, score_record_fields in H2 as [_ D2].
    apply entry_of_spec in He1 as (_ & P1 & _ & T1).
    apply entry_of_spec in He2 as (_ & P2 & _ & T2).
    unfold outranks. rewrite P1, P2, T1, T2, D1, D2. exact Hb.
  - apply StronglySorted_firstn, Hs.
Qed.

Lemma C3_leaderboard_ranked_witness :
  Forall (fun d => is_score_record d = true) [doc_slow; doc_fast]
  /\ exists items,
       get_leaderboard (ret [doc_slow; doc_fast]) None = Ok items
       /\ ranked items.
Proof.
  split.
  - repeat constructor.
  - apply (proj1 C3_leaderboard_ranked). repeat constructor.
Defined.

(** C7: for a positive limit a successful response holds at most
    min(limit, number of stored records) items, well-formed records always
    give a successful response, and an unspecified limit is 20. *)
Theorem C7_leaderboard_limit :
  forall docs (limit : Z),
    0 < limit ->
    (forall items,
        get_leaderboard (ret docs) (Some limit) = Ok items ->
        Z.of_nat (length items) <= Z.min limit (Z.of_nat (length docs)))
    /\ (Forall (fun d => well_formed d = true) docs ->
        exists items, get_leaderboard (ret docs) (Some limit) = Ok items)
    /\ (forall get_documents,
        get_leaderboard get_documents None
        = get_leaderboard get_documents (Some 20)).
Proof.
  intros docs limit Hpos. split; [|split].
  - intros items H. rewrite (get_leaderboard_length docs limit items); [lia|lia|exact H].
  - apply get_leaderboard_total.
  - reflexivity.
Qed.

Lemma C7_leaderboard_limit_witness :
  0 < 1
  /\ (forall items,
        get_leaderboard (ret [doc_slow; doc_fast; doc_missing]) (Some 1) = Ok items ->
        Z.of_nat (length items)
        <= Z.min 1 (Z.of_nat (length [doc_slow; doc_fast; doc_missing])))
  /\ get_leaderboard (ret [doc_slow; doc_fast; doc_missing]) (Some 1)
     = Ok [mkEntry (PStr "Fay") 5 3 4000].
Proof.
  split; [lia|]. split.
  - apply (C7_leaderboard_limit [doc_slow; doc_fast; doc_missing] 1). lia.
  - reflexivity.
Defined.

(** C9, as the code has it: in a successful response, the entry of a record
    without duration_ms reports duration_ms = 0 although the record was
    sorted with the key 1,000,000, which places it after the records of
    its points group below 1,000,000 ms and before those above, not last;
    a missing name is reported as "Player" and a missing level as 1. *)
Theorem C9_leaderboard_missing_fields :
  forall docs limit items,
    get_leaderboard (ret docs) limit = Ok items ->
    exists docs_sorted,
      sorted sort_key docs = inr docs_sorted
      /\ Forall2
           (fun d e =>
              (d !! "duration_ms" = None ->
               duration_ms e = 0
               /\ exists k, sort_key d = inr k /\ k.2 = 1000000)
              /\ (d !! "name" = None -> name e = PStr "Player")
              /\ (d !! "level" = None -> level e = 1))
           (slice_to docs_sorted (default default_limit limit)) items
      /\ (forall (i j : nat) d1 d2,
            docs_sorted !! i = Some d1 -> docs_sorted !! j = Some d2 ->
            d1 !! "duration_ms" = None ->
            spec_points d1 = spec_points d2 ->
            (spec_duration d2 < 1000000 -> (j < i)%nat)
            /\ (1000000 < spec_duration d2 -> (i < j)%nat)).
Proof.
  intros docs limit items (kl & Hkl & Hi)%get_leaderboard_Ok.
  exists (map snd (sort_keyed kl)). split.
  { unfold sorted. rewrite Hkl. reflexivity. }
  destruct (sorted_docs _ _ Hkl) as [Hp Hsorted].
  destruct (decorate_spec _ _ _ Hkl) as [Hm Hk].
  split.
  - assert (Hkey : forall d, In d (map snd (sort_keyed kl)) ->
                             exists k, sort_key d = inr k).
    { intros d Hd. eapply Permutation_in in Hd; [|exact Hp].
      rewrite <- Hm in Hd. apply in_map_iff in Hd as ([k d'] & <- & Hd).
      rewrite List.Forall_forall in Hk. exists k. apply (Hk _ Hd). }
    destruct (slice_to_firstn (map snd (sort_keyed kl))
                (default default_limit limit)) as [n Hn].
    rewrite Hn in *. apply mapM_inr in Hi.
    assert (Hsub : forall d, In d (firstn n (map snd (sort_keyed kl))) ->
                             exists k, sort_key d = inr k).
    { intros d Hd. apply Hkey. rewrite <- (firstn_skipn n).
      apply in_or_app. left. exact Hd. }
    clear Hn Hkey. induction Hi as [|d e l l' He Hi IH]; constructor.
    + destruct (Hsub d (or_introl eq_refl)) as [k Hk'].
      apply entry_of_spec in He as (N & _ & L & T).
      split; [|split].
      * intros Hd. split.
        -- rewrite T. unfold coerced. rewrite Hd. reflexivity.
        -- exists k. split; [exact Hk'|].
           rewrite (sort_key_spec _ _ Hk').
           unfold spec_key, spec_duration, coerced.
           rewrite Hd. reflexivity.
      * intros Hd. rewrite N. unfold get. rewrite Hd. reflexivity.
      * intros Hd. rewrite L. unfold coerced. rewrite Hd. reflexivity.
    + apply IH. intros d' Hd'. apply Hsub. right. exact Hd'.
  - intros i j d1 d2 Hi1 Hj2 Hd1 Hpts.
    assert (Hmiss : spec_duration d1 = 1000000).
    { unfold spec_duration, coerced. rewrite Hd1. reflexivity. }
    split; intros Hcmp.
    + destruct (Nat.lt_trichotomy i j) as [Hlt|[->|Hgt]]; [| |exact Hgt].
      * pose proof (StronglySorted_lookup _ _ _ _ _ _ Hsorted Hi1 Hj2 Hlt) as Hb.
        unfold spec_before in Hb. lia.
      * assert (d1 = d2) by congruence. subst. lia.
    + destruct (Nat.lt_trichotomy i j) as [Hlt|[->|Hgt]]; [exact Hlt| |].
      * assert (d1 = d2) by congruence. subst. lia.
      * pose proof (StronglySorted_lookup _ _ _ _ _ _ Hsorted Hj2 Hi1 Hgt) as Hb.
        unfold spec_before in Hb. lia.
Qed.

Lemma C9_leaderboard_missing_fields_witness :
  get_leaderboard (ret [doc_missing; doc_fast; doc_slow]) None
  = Ok [mkEntry (PStr "Fay") 5 3 4000; mkEntry (PStr "Player") 5 1 0;
        mkEntry (PStr "Sam") 5 3 2000000]
  /\ exists docs_sorted,
      sorted sort_key [doc_missing; doc_fast; doc_slow] = inr docs_sorted
      /\ Forall2
           (fun d e =>
              (d !! "duration_ms" = None ->
               duration_ms e = 0
               /\ exists k, sort_key d = inr k /\ k.2 = 1000000)
              /\ (d !! "name" = None -> name e = PStr "Player")
              /\ (d !! "level" = None -> level e = 1))
           (slice_to docs_sorted (default default_limit None))
           [mkEntry (PStr "Fay") 5 3 4000; mkEntry (PStr "Player") 5 1 0;
            mkEntry (PStr "Sam") 5 3 2000000]
      /\ (forall (i j : nat) d1 d2,
            docs_sorted !! i = Some d1 -> docs_sorted !! j = Some d2 ->
            d1 !! "duration_ms" = None ->
            spec_points d1 = spec_points d2 ->
            (spec_duration d2 < 1000000 -> (j < i)%nat)
            /\ (1000000 < spec_duration d2 -> (i < j)%nat)).
Proof.
  split; [reflexivity|].
  apply (C9_leaderboard_missing_fields [doc_missing; doc_fast; doc_slow] None).
  reflexivity.
Defined.

(** The claim C9 as stated fails: a record without duration_ms is not
    ordered worst within its points group; it is ranked before the record
    of the same points that took 2,000,000 ms. *)
Lemma C9_counterexample :
  doc_missing !! "duration_ms" = None
  /\ spec_points doc_missing = spec_points doc_slow
  /\ sorted sort_key [doc_slow; doc_missing] = inr [doc_missing; doc_slow]
  /\ get_leaderboard (ret [doc_slow; doc_missing]) None
     = Ok [mkEntry (PStr "Player") 5 1 0; mkEntry (PStr "Sam") 5 3 2000000].
Proof. repeat split. Qed.



End LeaderboardClaims.

Section LeaderboardCoercion.

Implicit Types (d : doc) (docs ds : list doc) (limit : option Z).

Lemma sort_key_raises d :
  convertible (get d "points" (PInt 0)) = false
  \/ convertible (get d "duration_ms" (PInt 1000000)) = false ->
  exists e, sort_key d = inl e.
Proof.
  unfold sort_key, convertible.
  destruct (int (get d "points" (PInt 0))) as [e|p]; simpl; [eauto|].
  destruct (int (get d "duration_ms" (PInt 1000000))) as [e|t]; simpl; [eauto|].
  intros [H|H]; discriminate.
Qed.

(** C2, as the code has it: when every points, level and duration_ms field
    is missing or convertible by int(), the query succeeds, its records are
    ordered with 0 for a missing points and 1,000,000 for a missing
    duration_ms, and a record without duration_ms stands after every record
    of the same points whose duration_ms is below 1,000,000; a points or
    duration_ms value that int() rejects makes the whole query fail with
    HTTP 500. *)
Theorem C2_leaderboard_coercion :
  (forall docs limit,
      Forall (fun d => well_formed d = true) docs ->
      exists ds items,
        sorted sort_key docs = inr ds
        /\ get_leaderboard (ret docs) limit = Ok items
        /\ Permutation ds docs
        /\ StronglySorted spec_before ds
        /\ Forall2 (fun d e => entry_of d = inr e)
             (slice_to ds (default default_limit limit)) items
        /\ (forall d, d !! "points" = None -> spec_points d = 0)
        /\ (forall d, d !! "duration_ms" = None -> spec_duration d = 1000000)
        /\ (forall (i j : nat) d1 d2,
              ds !! i = Some d1 -> ds !! j = Some d2 ->
              d1 !! "duration_ms" = None ->
              spec_points d1 = spec_points d2 ->
              spec_duration d2 < 1000000 ->
              (j < i)%nat))
  /\ (forall docs limit d,
        In d docs ->
        convertible (get d "points" (PInt 0)) = false
        \/ convertible (get d "duration_ms" (PInt 1000000)) = false ->
        exists e, get_leaderboard (ret docs) limit = Failed (mkHTTP 500 (DStr e))).
Proof.
  split.
  - intros docs limit Hwf.
    destruct (get_leaderboard_total docs limit Hwf) as [items Hitems].
    pose proof Hitems as (kl & Hkl & Hi)%get_leaderboard_Ok.
    destruct (sorted_docs _ _ Hkl) as [Hp Hs].
    exists (map snd (sort_keyed kl)), items.
    split; [unfold sorted; rewrite Hkl; reflexivity|].
    split; [exact Hitems|]. split; [exact Hp|]. split; [exact Hs|].
    split; [apply mapM_inr, Hi|].
    assert (Hmiss : forall d, d !! "duration_ms" = None -> spec_duration d = 1000000).
    { intros d Hd. unfold spec_duration, coerced. rewrite Hd. reflexivity. }
    split; [intros d Hd; unfold spec_points, coerced; rewrite Hd; reflexivity|].
    split; [exact Hmiss|].
    intros i j d1 d2 Hi1 Hj2 Hd1 Hpts Hfast.
    apply Hmiss in Hd1.
    destruct (Nat.lt_trichotomy i j) as [Hlt|[->|Hgt]]; [| |exact Hgt].
    + pose proof (StronglySorted_lookup _ _ _ _ _ _ Hs Hi1 Hj2 Hlt) as Hb.
      unfold spec_before in Hb. lia.
    + assert (d1 = d2) by congruence. subst. lia.
  - intros docs limit d Hin Hbad.
    unfold get_leaderboard, sorted. simpl.
    destruct (mapM_raises (fun x => try! k := sort_key x in ret (k, x)) docs)
      as [e He].
    { apply List.Exists_exists. exists d. split; [exact Hin|].
      destruct (sort_key_raises d Hbad) as [e ->]. simpl. eauto. }
    unfold decorate. rewrite He. simpl. eauto.
Qed.

Lemma C2_leaderboard_coercion_witness :
  Forall (fun d => well_formed d = true) [doc_missing; doc_slow; doc_fast]
  /\ get_leaderboard (ret [doc_missing; doc_slow; doc_fast]) None
     = Ok [mkEntry (PStr "Fay") 5 3 4000; mkEntry (PStr "Player") 5 1 0;
           mkEntry (PStr "Sam") 5 3 2000000]
  /\ (exists ds items,
        sorted sort_key [doc_missing; doc_slow; doc_fast] = inr ds
        /\ get_leaderboard (ret [doc_missing; doc_slow; doc_fast]) None = Ok items
        /\ Permutation ds [doc_missing; doc_slow; doc_fast]
        /\ StronglySorted spec_before ds
        /\ Forall2 (fun d e => entry_of d = inr e)
             (slice_to ds (default default_limit None)) items
        /\ (forall d, d !! "points" = None -> spec_points d = 0)
        /\ (forall d, d !! "duration_ms" = None -> spec_duration d = 1000000)
        /\ (forall (i j : nat) d1 d2,
              ds !! i = Some d1 -> ds !! j = Some d2 ->
              d1 !! "duration_ms" = None ->
              spec_points d1 = spec_points d2 ->
              spec_duration d2 < 1000000 ->
              (j < i)%nat))
  /\ In doc_bad_points [doc_fast; doc_bad_points]
  /\ convertible (get doc_bad_points "points" (PInt 0)) = false
  /\ exists e,
       get_leaderboard (ret [doc_fast; doc_bad_points]) None
       = Failed (mkHTTP 500 (DStr e)).
Proof.
  split; [repeat constructor|]. split; [reflexivity|]. split.
  - apply (proj1 C2_leaderboard_coercion). repeat constructor.
  - split; [right; left; reflexivity|]. split; [reflexivity|].
    apply (proj2 C2_leaderboard_coercion [doc_fast; doc_bad_points] None
             doc_bad_points).
    + right; left; reflexivity.
    + left. reflexivity.
Defined.

(** The claim C2 as the specification states it fails: a record whose
    points is the string "abc" makes the query raise (HTTP 500) instead of
    being ranked with 0 points, and a record without duration_ms is ranked
    before, not after, a record of its points group that took 2,000,000
    ms. *)
Lemma C2_counterexample :
  get_leaderboard (ret [doc_fast; doc_bad_points]) None
  = Failed (mkHTTP 500 (DStr (ValueError_int_literal "abc")))
  /\ ~ (exists items,
          get_leaderboard (ret [doc_fast; doc_bad_points]) None = Ok items)
  /\ get_leaderboard (ret [doc_slow; doc_missing]) None
     = Ok [mkEntry (PStr "Player") 5 1 0; mkEntry (PStr "Sam") 5 3 2000000].
Proof.
  split; [reflexivity|]. split; [|reflexivity].
  intros [items H]. discriminate H.
Qed.

End LeaderboardCoercion.

(** ** The URL pattern *)

Section RegexFacts.

Local Open Scope N_scope.

Implicit Types (r : regex) (s : ustr) (k : ustr -> bool).

Lemma plus1_spec (c : charclass) k s :
  rmatch (Plus1 c) k s = true <->
  exists s1 s2, s = s1 ++ s2 /\ lang (Plus1 c) s1 /\ k s2 = true.
Proof.
  induction s as [|x s IH]; simpl.
  - split; [discriminate|].
    intros (s1 & s2 & E & [Hne _] & _).
    destruct s1; [congruence|discriminate].
  - simpl in IH. rewrite andb_true_iff, orb_true_iff, IH. split.
    + intros [Hx [(s1 & s2 & -> & [_ Hall] & Hk)|Hk]].
      * exists (x :: s1), s2. repeat split; auto; try discriminate.
      * exists [x], s. repeat split; auto; try discriminate.
    + intros (s1 & s2 & E & [Hne Hall] & Hk).
      destruct s1 as [|y s1]; [congruence|].
      injection E as <- ->. inversion Hall as [|? ? Hy Hall']; subst.
      split; [exact Hy|].
      destruct s1 as [|z s1]; [right; exact Hk|].
      left. exists (z :: s1), s2. repeat split; auto; try discriminate.
Qed.

(** The matcher decides the language of the pattern followed by the
    continuation. *)
Lemma rmatch_spec r : forall k s,
  rmatch r k s = true <->
  exists s1 s2, s = s1 ++ s2 /\ lang r s1 /\ k s2 = true.
Proof.
  induction r as [|c|r1 IH1 r2 IH2|r1 IH1 r2 IH2|r1 IH1|c]; intros k s.
  - simpl. split.
    + intros H. exists [], s. auto.
    + intros (s1 & s2 & -> & -> & H). exact H.
  - simpl. destruct s as [|x s].
    + split; [discriminate|].
      intros (s1 & s2 & E & (x & -> & _) & _). discriminate.
    + rewrite andb_true_iff. split.
      * intros [Hx Hk]. exists [x], s. repeat split; eauto.
      * intros (s1 & s2 & E & (y & -> & Hy) & Hk).
        injection E as -> ->. auto.
  - simpl. rewrite IH1. split.
    + intros (s1 & s2 & -> & H1 & H2). apply IH2 in H2 as (s3 & s4 & -> & H3 & Hk).
      exists (s1 ++ s3), s4. rewrite <- app_assoc. repeat split; eauto.
    + intros (s1 & s2 & -> & (s3 & s4 & -> & H3 & H4) & Hk).
      exists s3, (s4 ++ s2). rewrite <- app_assoc. repeat split; auto.
      apply IH2. eauto.
  - simpl. rewrite orb_true_iff, IH1, IH2. split.
    + intros [(s1 & s2 & E & H & Hk)|(s1 & s2 & E & H & Hk)];
        exists s1, s2; auto.
    + intros (s1 & s2 & E & [H|H] & Hk); [left|right]; eauto.
  - simpl. rewrite orb_true_iff, IH1. split.
    + intros [(s1 & s2 & E & H & Hk)|Hk].
      * exists s1, s2; auto.
      * exists [], s; auto.
    + intros (s1 & s2 & E & [H| ->] & Hk); [left; eauto|right].
      simpl in E. congruence.
  - apply plus1_spec.
Qed.

Lemma re_match_spec r s :
  re_match r s = true <-> exists s1 s2, s = s1 ++ s2 /\ lang r s1.
Proof.
  unfold re_match. rewrite rmatch_spec. split.
  - intros (s1 & s2 & E & H & _). eauto.
  - intros (s1 & s2 & E & H). eauto.
Qed.

Lemma lang_lit (ps : ustr) s :
  lang (lit ps) s <-> Forall2 (fun x p => lit_match p x = true) s ps.
Proof.
  revert s; induction ps as [|p ps IH]; intros s; simpl.
  - split; [intros ->; constructor|]. intros H; inversion H; reflexivity.
  - split.
    + intros (s1 & s2 & -> & (x & -> & Hx) & H2). constructor; [exact Hx|].
      apply IH, H2.
    + intros H. inversion H as [|x p' s' ps' Hx Hs]; subst.
      exists [x], s'. repeat split; eauto. apply IH, Hs.
Qed.

End RegexFacts.

Section CaseFolding.

Local Open Scope N_scope.

Ltac split_tests :=
  repeat match goal with
         | |- context [N.leb ?a ?b] => destruct (N.leb_spec a b)
         end;
  cbn [andb orb];
  repeat match goal with
         | |- context [N.eqb ?a ?b] => is_var a; destruct (N.eqb_spec a b)
         end;
  repeat match goal with
         | |- context [N.eqb ?a ?b] => destruct (N.eqb_spec a b)
         end;
  cbn [andb orb]; split; intros; try lia; try discriminate.

(** On the characters of the pattern, a literal matches exactly the code
    points that fold to it. *)
Lemma lit_match_casefold (p x : N) :
  In p alphabet -> lit_match p x = true <-> casefold x = p.
Proof.
  intros H.
  change alphabet
    with [104; 116; 112; 115; 58; 47; 119; 46; 121; 111; 117; 98; 101; 99; 109]
    in H.
  cbn [In] in H.
  repeat (destruct H as [<-|H]); try contradiction.
  - change (lit_match 104 x) with (unicode_tolower x =? 104).
    unfold unicode_tolower, casefold. split_tests.
  - change (lit_match 116 x) with (unicode_tolower x =? 116).
    unfold unicode_tolower, casefold. split_tests.
  - change (lit_match 112 x) with (unicode_tolower x =? 112).
    unfold unicode_tolower, casefold. split_tests.
  - change (lit_match 115 x)
      with ((unicode_tolower x =? 115) || ((unicode_tolower x =? 383) || false)).
    unfold unicode_tolower, casefold. split_tests.
  - change (lit_match 58 x) with (x =? 58). unfold casefold. split_tests.
  - change (lit_match 47 x) with (x =? 47). unfold casefold. split_tests.
  - change (lit_match 119 x) with (unicode_tolower x =? 119).
    unfold unicode_tolower, casefold. split_tests.
  - change (lit_match 46 x) with (x =? 46). unfold casefold. split_tests.
  - change (lit_match 121 x) with (unicode_tolower x =? 121).
    unfold unicode_tolower, casefold. split_tests.
  - change (lit_match 111 x) with (unicode_tolower x =? 111).
    unfold unicode_tolower, casefold. split_tests.
  - change (lit_match 117 x) with (unicode_tolower x =? 117).
    unfold unicode_tolower, casefold. split_tests.
  - change (lit_match 98 x) with (unicode_tolower x =? 98).
    unfold unicode_tolower, casefold. split_tests.
  - change (lit_match 101 x) with (unicode_tolower x =? 101).
    unfold unicode_tolower, casefold. split_tests.
  - change (lit_match 99 x) with (unicode_tolower x =? 99).
    unfold unicode_tolower, casefold. split_tests.
  - change (lit_match 109 x) with (unicode_tolower x =? 109).
    unfold unicode_tolower, casefold. split_tests.
Qed.

Lemma lang_str_ci (p : string) (s : ustr) :
  Forall (fun c => In c alphabet) (of_string p) ->
  lang (str p) s <-> ci_eq s p.
Proof.
  unfold str, ci_eq. rewrite lang_lit. generalize (of_string p) as ps.
  intros ps Hps. revert s. induction Hps as [|c ps Hc Hps IH]; intros s.
  - split.
    + intros H; inversion H; reflexivity.
    + destruct s; [constructor|discriminate].
  - split.
    + intros H. inversion H as [|x ? s' ? Hx Hs]; subst. simpl.
      f_equal; [apply lit_match_casefold; assumption|]. apply IH, Hs.
    + destruct s as [|x s]; [discriminate|]. simpl. intros [= Hx Hs].
      constructor; [apply lit_match_casefold; assumption|]. apply IH, Hs.
Qed.

Lemma ci_eq_app (s1 s2 : ustr) (p1 p2 : string) :
  ci_eq s1 p1 -> ci_eq s2 p2 -> map casefold (s1 ++ s2) = of_string p1 ++ of_string p2.
Proof. unfold ci_eq. intros H1 H2. rewrite map_app. congruence. Qed.

Lemma ci_eq_split (s : ustr) (p1 p2 : string) :
  map casefold s = of_string p1 ++ of_string p2 ->
  exists s1 s2, s = s1 ++ s2 /\ ci_eq s1 p1 /\ ci_eq s2 p2.
Proof. intros H. apply List.map_eq_app in H. exact H. Qed.

Lemma in_alphabet (p : string) :
  forallb (fun c => existsb (N.eqb c) alphabet) (of_string p) = true ->
  Forall (fun c => In c alphabet) (of_string p).
Proof.
  intros H. apply List.Forall_forall. intros c Hc.
  rewrite forallb_forall in H. apply H in Hc.
  apply existsb_exists in Hc as (c' & Hin & ->%N.eqb_eq). exact Hin.
Qed.

End CaseFolding.

Section UrlShape.

Local Open Scope N_scope.

Implicit Types (s url : ustr).

Ltac ci H := apply lang_str_ci in H; [|apply in_alphabet; reflexivity].
Ltac ci_goal := apply lang_str_ci; [apply in_alphabet; reflexivity|].

Lemma lang_scheme s :
  lang (Opt (Seq (str "http") (Seq (Opt (str "s")) (str "://")))) s <->
  s = [] \/ ci_eq s "http://" \/ ci_eq s "https://".
Proof.
  cbn [lang]. split.
  - intros [(a & b & -> & Ha & (c & d & -> & [Hc| ->] & Hd))| ->]; [| |auto].
    + ci Ha. ci Hc. ci Hd. right; right. unfold ci_eq in *.
      rewrite !map_app, Ha, Hc, Hd. reflexivity.
    + ci Ha. ci Hd. right; left. unfold ci_eq in *.
      rewrite !map_app, Ha, Hd. reflexivity.
  - intros [->|[H|H]]; [auto| |]; left.
    + apply (ci_eq_split s "http" "://") in H as (a & d & -> & Ha & Hd).
      exists a, d. split; [reflexivity|]. split; [ci_goal; exact Ha|].
      exists [], d. split; [reflexivity|]. split; [right; reflexivity|].
      ci_goal; exact Hd.
    + apply (ci_eq_split s "http" "s://") in H as (a & b & -> & Ha & Hb).
      apply (ci_eq_split b "s" "://") in Hb as (c & d & -> & Hc & Hd).
      exists a, (c ++ d). split; [reflexivity|]. split; [ci_goal; exact Ha|].
      exists c, d. split; [reflexivity|]. split; [left; ci_goal; exact Hc|].
      ci_goal; exact Hd.
Qed.

Lemma lang_www s : lang (Opt (str "www.")) s <-> s = [] \/ ci_eq s "www.".
Proof.
  cbn [lang]. split.
  - intros [H| ->]; [ci H|]; auto.
  - intros [->|H]; [auto|left; ci_goal; exact H].
Qed.

Lemma lang_host s :
  lang (Alt (str "youtube.com") (str "youtu.be")) s <->
  ci_eq s "youtube.com" \/ ci_eq s "youtu.be".
Proof.
  cbn [lang]. split.
  - intros [H|H]; ci H; auto.
  - intros [H|H]; [left|right]; ci_goal; exact H.
Qed.

Lemma lang_slash s : lang (str "/") s <-> s = of_string "/".
Proof.
  split.
  - intros H. ci H. unfold ci_eq in H.
    destruct s as [|x [|y s]]; try discriminate. injection H as H.
    assert (E : lit_match 47 x = true).
    { apply lit_match_casefold; [|exact H].
      apply (proj1 (List.Forall_forall _ _) (in_alphabet "/" eq_refl)).
      left; reflexivity. }
    change (lit_match 47 x) with (x =? 47) in E.
    apply N.eqb_eq in E. subst. reflexivity.
  - intros ->. ci_goal. reflexivity.
Qed.

Lemma lang_any_plus s :
  lang (Plus1 CAny) s <-> s <> [] /\ Forall (fun x => x <> 10) s.
Proof.
  cbn [lang class_match]. split; intros [Hne H]; (split; [exact Hne|]);
    (eapply List.Forall_impl; [|exact H]); intros x Hx.
  - intros ->. discriminate.
  - apply negb_true_iff, N.eqb_neq, Hx.
Qed.

(** What the pattern matches from the start of the URL. *)
Lemma re_match_shape url :
  re_match YOUTUBE_URL_RE url = true <-> spec_accepts_no_lf url.
Proof.
  rewrite re_match_spec. unfold YOUTUBE_URL_RE, spec_accepts_no_lf, url_shape.
  split.
  - intros (m & tail & -> & Hm). cbn [lang] in Hm.
    destruct Hm as (scheme & m1 & -> & Hs & www & m2 & -> & Hw & host & m3
                    & -> & Hh & sl & body & -> & Hsl & Hb).
    apply lang_scheme in Hs. apply lang_www in Hw. apply lang_host in Hh.
    apply lang_slash in Hsl. subst sl. apply lang_any_plus in Hb as [Hne Hall].
    destruct body as [|x body]; [congruence|].
    exists scheme, www, host, ((x :: body) ++ tail).
    split; [rewrite <- !app_assoc; reflexivity|].
    repeat (split; [assumption|]).
    exists x, (body ++ tail). split; [reflexivity|].
    inversion Hall; assumption.
  - intros (scheme & www & host & rest & -> & Hs & Hw & Hh & x & rest' & -> & Hx).
    exists (scheme ++ www ++ host ++ of_string "/" ++ [x]), rest'.
    split; [rewrite <- !app_assoc; reflexivity|].
    exists scheme, (www ++ host ++ of_string "/" ++ [x]).
    split; [reflexivity|]. split; [apply lang_scheme, Hs|].
    exists www, (host ++ of_string "/" ++ [x]).
    split; [reflexivity|]. split; [apply lang_www, Hw|].
    exists host, (of_string "/" ++ [x]).
    split; [reflexivity|]. split; [apply lang_host, Hh|].
    exists (of_string "/"), [x].
    split; [reflexivity|]. split; [apply lang_slash; reflexivity|].
    apply lang_any_plus. split; [discriminate|]. repeat constructor. exact Hx.
Qed.

End UrlShape.

(** ** The download handler *)

Section HandlerFacts.

Implicit Types (w : env) (url : ustr).

Lemma handle_not_invalid_url (e : pyexn) : handle e <> invalid_url.
Proof. destruct e; discriminate. Qed.

(** A URL the pattern does not match is rejected, with no effect. *)
Lemma download_rejects w url :
  re_match YOUTUBE_URL_RE url = false ->
  download_youtube w url = (Raised invalid_url, []).
Proof. intros H. unfold download_youtube. rewrite H. reflexivity. Qed.

(** A URL the pattern matches is never answered with that rejection. *)
Lemma download_accepts w url :
  re_match YOUTUBE_URL_RE url = true -> accepts w url.
Proof.
  intros H. unfold accepts, download_youtube. rewrite H. simpl.
  destruct (import_yt_dlp w) as [e|u]; simpl; [discriminate|].
  destruct (mkdtemp w) as [e|dir]; simpl; [discriminate|].
  destruct (run_download w url (make_opts dir)) as [[e|path] evs]; simpl.
  - intros [= E]. exact (handle_not_invalid_url _ E).
  - destruct (path_exists w path); simpl; discriminate.
Qed.

(** C4, as the code has it: the endpoint accepts a URL if and only if it
    consists, up to case, of an optional http:// or https://, an optional
    www., the host youtube.com or youtu.be, a slash and a non-empty
    remainder that does not start with a line feed; every other string, such
    as https://example.com/video, is rejected with HTTP 400. *)
Theorem C4_url_validation :
  (forall w url, accepts w url <-> spec_accepts_no_lf url)
  /\ (forall w url,
        ~ spec_accepts_no_lf url ->
        download_youtube w url = (Raised invalid_url, [])
        /\ status_code invalid_url = 400)
  /\ (forall w, download_youtube w url_example = (Raised invalid_url, [])).
Proof.
  split; [|split].
  - intros w url. rewrite <- re_match_shape. split.
    + intros Hacc. destruct (re_match YOUTUBE_URL_RE url) eqn:E; [reflexivity|].
      exfalso. apply Hacc. rewrite (download_rejects w url E). reflexivity.
    + apply download_accepts.
  - intros w url Hno. split; [|reflexivity].
    apply download_rejects. rewrite <- re_match_shape in Hno.
    destruct (re_match YOUTUBE_URL_RE url); [contradiction|reflexivity].
  - intros w. apply download_rejects. reflexivity.
Qed.

Lemma C4_url_validation_witness :
  accepts env_ok url_watch
  /\ spec_accepts_no_lf url_watch
  /\ ~ spec_accepts_no_lf url_example
  /\ download_youtube env_ok url_example = (Raised invalid_url, []).
Proof.
  assert (Hacc : accepts env_ok url_watch) by (vm_compute; discriminate).
  assert (Hrej : ~ spec_accepts_no_lf url_example).
  { intros H. apply (proj1 C4_url_validation env_ok url_example) in H.
    apply H. reflexivity. }
  split; [exact Hacc|]. split.
  - apply (proj1 C4_url_validation env_ok url_watch). exact Hacc.
  - split; [exact Hrej|].
    apply (proj1 (proj2 C4_url_validation) env_ok url_example Hrej).
Defined.

(** The claim C4 as the specification states it fails: the remainder of
    "youtube.com/" followed by a line feed is not empty, yet the endpoint
    rejects that URL. *)
Lemma C4_counterexample :
  spec_accepts url_line_feed
  /\ forall w, download_youtube w url_line_feed = (Raised invalid_url, []).
Proof.
  split.
  - exists [], [], (of_string "youtube.com"), [10%N].
    split; [reflexivity|]. split; [left; reflexivity|].
    split; [left; reflexivity|]. split; [left; reflexivity|]. discriminate.
  - intros w. apply download_rejects. reflexivity.
Qed.

(** C6: a URL that does not match the pattern is rejected before any
    effect: the trace of the whole job is empty, so no scratch directory is
    created and the engine is not invoked. *)
Theorem C6_rejected_without_effects :
  forall w url acts,
    re_match YOUTUBE_URL_RE url = false ->
    exists rs,
      run_job w url acts = (Raised invalid_url, rs, [])
      /\ count is_mkdtemp (run_job w url acts).2 = 0%nat
      /\ count is_engine (run_job w url acts).2 = 0%nat.
Proof.
  intros w url acts H. unfold run_job.
  rewrite (download_rejects w url H). simpl. eexists. repeat split.
Qed.

Lemma C6_rejected_without_effects_witness :
  re_match YOUTUBE_URL_RE url_example = false
  /\ exists rs,
       run_job env_ok url_example [Next; Close] = (Raised invalid_url, rs, [])
       /\ count is_mkdtemp (run_job env_ok url_example [Next; Close]).2 = 0%nat
       /\ count is_engine (run_job env_ok url_example [Next; Close]).2 = 0%nat.
Proof.
  split; [reflexivity|].
  apply (C6_rejected_without_effects env_ok url_example [Next; Close]).
  reflexivity.
Defined.

(** C8: for a valid URL, a download error of the engine gives HTTP 400
    whose detail ends with the engine's message, a failed import of the
    engine gives HTTP 500, and a reported output file that does not exist
    gives HTTP 500. *)
Theorem C8_error_mapping :
  forall w url,
    re_match YOUTUBE_URL_RE url = true ->
    (forall e,
        import_yt_dlp w = inl e ->
        (download_youtube w url).1
        = Raised (mkHTTP 500 (DFmt "Downloader unavailable: " e)))
    /\ (forall u dir msg,
          import_yt_dlp w = inr u -> mkdtemp w = inr dir ->
          extract_info w url (make_opts dir) = inl (DownloadError msg) ->
          exists h,
            (download_youtube w url).1 = Raised h
            /\ status_code h = 400
            /\ detail_text (http_detail h) = Some ("Download error: " +:+ msg))
    /\ (forall u dir path evs,
          import_yt_dlp w = inr u -> mkdtemp w = inr dir ->
          run_download w url (make_opts dir) = (inr path, evs) ->
          path_exists w path = false ->
          exists h,
            (download_youtube w url).1 = Raised h /\ status_code h = 500).
Proof.
  intros w url Hm. split; [|split].
  - intros e He. unfold download_youtube. rewrite Hm, He. reflexivity.
  - intros u dir msg Hi Hd He. unfold download_youtube, run_download.
    rewrite Hm, Hi, Hd, He. simpl. eexists. repeat split.
  - intros u dir path evs Hi Hd Hr Hp. unfold download_youtube.
    rewrite Hm, Hi, Hd, Hr. simpl. rewrite Hp. simpl. eexists. repeat split.
Qed.

Lemma C8_error_mapping_witness :
  re_match YOUTUBE_URL_RE url_watch = true
  /\ (download_youtube env_no_engine url_watch).1
     = Raised (mkHTTP 500 (DFmt "Downloader unavailable: "
                             (ImportError "No module named yt_dlp")))
  /\ (exists h,
        (download_youtube env_fetch_fails url_watch).1 = Raised h
        /\ status_code h = 400
        /\ detail_text (http_detail h)
           = Some ("Download error: " +:+ "ERROR: Video unavailable"))
  /\ (exists h,
        (download_youtube env_missing_file url_watch).1 = Raised h
        /\ status_code h = 500).
Proof.
  split; [reflexivity|]. split; [|split].
  - apply (proj1 (C8_error_mapping env_no_engine url_watch eq_refl)).
    reflexivity.
  - apply (proj1 (proj2 (C8_error_mapping env_fetch_fails url_watch eq_refl))
             tt "/tmp/yt_k3" "ERROR: Video unavailable"); reflexivity.
  - apply (proj2 (proj2 (C8_error_mapping env_missing_file url_watch eq_refl))
             tt "/tmp/yt_k3" video_path
             [EEngine url_watch (make_opts "/tmp/yt_k3")]); reflexivity.
Defined.

End HandlerFacts.

(** ** The generator and its cleanup *)

Section GeneratorFacts.

Implicit Types (w : env) (g : gen_state) (acts : list action)
  (t : list event) (rs : list gen_result).

(** Both cleanup calls are attempted and neither failure leaves the
    [finally] block. *)
Lemma cleanup_spec w path tmpdir :
  cleanup w path tmpdir = (inr tt, [ERemove path; ERmdir tmpdir]).
Proof.
  unfold cleanup.
  destruct (os_remove w path) as [e|[]], (os_rmdir w tmpdir) as [e'|[]];
    reflexivity.
Qed.

Lemma finally_spec w path tmpdir body :
  finally w path tmpdir body = (body, [ERemove path; ERmdir tmpdir]).
Proof. unfold finally. rewrite cleanup_spec. reflexivity. Qed.

Lemma cleanup_events_app t1 t2 :
  cleanup_events (t1 ++ t2) = cleanup_events t1 ++ cleanup_events t2.
Proof. apply List.filter_app. Qed.

Lemma stream_state_prefix path tmpdir g t1 t2 :
  cleanup_events t1 = [] ->
  stream_state path tmpdir g t2 -> stream_state path tmpdir g (t1 ++ t2).
Proof.
  unfold stream_state. rewrite cleanup_events_app. intros ->. auto.
Qed.

Lemma read_loop_spec w path tmpdir rest n r g t :
  read_loop w path tmpdir rest n = (r, g, t) ->
  stream_state path tmpdir g t /\ io_error w path r.
Proof.
  unfold read_loop. destruct (file_read w n) as [e|u] eqn:E.
  - rewrite finally_spec. intros [= <- <- <-]. split.
    + left. split; reflexivity.
    + right. eauto.
  - destruct (firstn CHUNK_SIZE rest) as [|b chunk].
    + rewrite finally_spec. intros [= <- <- <-]. split; [|exact I].
      left. split; reflexivity.
    + intros [= <- <- <-]. split; [|exact I].
      right. split; [eauto|reflexivity].
Qed.

Lemma drive_finished w acts rs g t :
  drive w GFinished acts = (rs, g, t) ->
  g = GFinished /\ t = [] /\ Forall (io_error w EmptyString) rs.
Proof.
  revert rs g t; induction acts as [|a acts IH]; intros rs g t H.
  - injection H as <- <- <-. repeat split. constructor.
  - destruct a; cbn [drive gen_step gen_next gen_close] in H;
      destruct (drive w GFinished acts) as [[rs' g'] t'] eqn:E;
      destruct (IH _ _ _ eq_refl) as (-> & -> & F);
      injection H as <- <- <-;
      repeat split; constructor; simpl; auto.
Qed.

Lemma io_error_finished w path rs :
  Forall (io_error w EmptyString) rs ->
  (forall r, In r rs -> r = StopIteration \/ r = Closed) ->
  Forall (io_error w path) rs.
Proof.
  intros _ H. apply List.Forall_forall. intros r Hr.
  destruct (H r Hr) as [->| ->]; exact I.
Qed.

Lemma drive_finished_results w acts rs g t :
  drive w GFinished acts = (rs, g, t) ->
  forall r, In r rs -> r = StopIteration \/ r = Closed.
Proof.
  revert rs g t; induction acts as [|a acts IH]; intros rs g t H r Hr.
  - injection H as <- <- <-. contradiction.
  - destruct a; cbn [drive gen_step gen_next gen_close] in H;
      destruct (drive w GFinished acts) as [[rs' g'] t'] eqn:E;
      injection H as <- <- <-;
      (destruct Hr as [<-|Hr]; [auto|eapply IH; eauto]).
Qed.

(** Once suspended, the generator stays suspended without any cleanup or
    finishes with exactly one. *)
Lemma drive_suspended w acts : forall path tmpdir rest n rs g t,
  drive w (GSuspended path tmpdir rest n) acts = (rs, g, t) ->
  stream_state path tmpdir g t /\ Forall (io_error w path) rs.
Proof.
  induction acts as [|a acts IH]; intros path tmpdir rest n rs g t H.
  - simpl in H. injection H as <- <- <-. split; [|constructor].
    right. split; [eauto|reflexivity].
  - cbn [drive] in H.
    destruct (gen_step w a (GSuspended path tmpdir rest n)) as [[r g1] t1] eqn:S.
    destruct (drive w g1 acts) as [[rs' g'] t'] eqn:D.
    injection H as <- <- <-.
    assert (S1 : stream_state path tmpdir g1 t1 /\ io_error w path r).
    { destruct a; cbn [gen_step gen_next gen_close] in S.
      - eapply read_loop_spec; eassumption.
      - rewrite finally_spec in S. injection S as <- <- <-.
        split; [|exact I]. left. split; reflexivity. }
    destruct S1 as [[[-> C1]|[(rest' & n' & ->) C1]] Hr].
    + pose proof (drive_finished_results _ _ _ _ _ D) as Hres.
      apply drive_finished in D as (-> & -> & F). split.
      * left. split; [reflexivity|]. rewrite app_nil_r. exact C1.
      * constructor; [exact Hr|]. apply io_error_finished; assumption.
    + destruct (IH _ _ _ _ _ _ _ D) as [St F]. split.
      * apply stream_state_prefix; assumption.
      * constructor; assumption.
Qed.

(** The first [next] enters the body: from then on the generator is
    suspended or finished. *)
Lemma drive_started w path tmpdir acts rs g t :
  drive w (GCreated path tmpdir) (Next :: acts) = (rs, g, t) ->
  stream_state path tmpdir g t /\ Forall (io_error w path) rs.
Proof.
  cbn [drive gen_step]. intros H.
  destruct (gen_next w (GCreated path tmpdir)) as [[r g1] t1] eqn:S.
  destruct (drive w g1 acts) as [[rs' g'] t'] eqn:D.
  injection H as <- <- <-.
  assert (S1 : stream_state path tmpdir g1 t1 /\ io_error w path r).
  { cbn [gen_next] in S. destruct (file_open w path) as [e|content] eqn:O.
    - rewrite finally_spec in S. injection S as <- <- <-. split.
      + left. split; reflexivity.
      + left. exact O.
    - destruct (read_loop w path tmpdir content 0) as [[r0 g0] t0] eqn:L.
      injection S as <- <- <-.
      destruct (read_loop_spec _ _ _ _ _ _ _ _ L) as [St Hr]. split; [|exact Hr].
      destruct St as [[-> C]|[Hs C]]; [left|right];
        (split; [reflexivity || assumption|]); exact C. }
  destruct S1 as [[[-> C1]|[(rest' & n' & ->) C1]] Hr].
  - pose proof (drive_finished_results _ _ _ _ _ D) as Hres.
    apply drive_finished in D as (-> & -> & F). split.
    + left. split; [reflexivity|]. rewrite app_nil_r. exact C1.
    + constructor; [exact Hr|]. apply io_error_finished; assumption.
  - destruct (drive_suspended _ _ _ _ _ _ _ _ _ D) as [St F]. split.
    + apply stream_state_prefix; assumption.
    + constructor; assumption.
Qed.

(** Closing ends a suspended generator. *)
Lemma gen_close_finishes w g : (gen_close w g).1.2 = GFinished.
Proof.
  destruct g as [p d|p d rest n|]; reflexivity.
Qed.



End GeneratorFacts.

Section CleanupClaims.

Implicit Types (w : env) (g : gen_state) (acts : list action).



(** A generator that is closed before its first [next] runs no cleanup:
    the hypothesis of the theorem above cannot be dropped. *)
Lemma close_before_start_no_cleanup w path tmpdir :
  drive w (GCreated path tmpdir) [Close] = ([Closed], GFinished, []).
Proof. reflexivity. Qed.

(** C1, evaluated where the code departs from it: with a valid URL, when
    the engine raises a download error, or reports a file that does not
    exist, the scratch directory has been created and the job ends without
    any cleanup attempt, whatever the framework does afterwards. *)
Theorem C1_no_cleanup_on_failed_fetch :
  forall acts,
    (exists t,
        run_job env_fetch_fails url_watch acts
        = (Raised (mkHTTP 400 (DFmt "Download error: "
                                 (DownloadError "ERROR: Video unavailable"))),
           [], t)
        /\ count is_mkdtemp t = 1%nat
        /\ cleanup_events t = [])
    /\ (exists t,
          run_job env_missing_file url_watch acts
          = (Raised (mkHTTP 500 (DStr (RaisedHTTP 500 "Failed to download video"))),
             [], t)
          /\ count is_mkdtemp t = 1%nat
          /\ cleanup_events t = []).
Proof.
  intros acts. split; eexists; (split; [reflexivity|]); split; reflexivity.
Qed.

End CleanupClaims.

(** * Further properties *)

Import MoreExamples.

(** ** The ranking query *)

Section RankingFacts.

Import Ranking.

Implicit Types (d : doc) (docs ds : list doc) (limit : option Z).

Lemma slice_to_ge {A} (l : list A) (stop : Z) :
  Z.of_nat (length l) <= stop -> slice_to l stop = l.
Proof.
  intros H. unfold slice_to.
  destruct (Z.ltb_spec stop 0); [lia|].
  rewrite Z.min_r by lia. rewrite Nat2Z.id. apply firstn_all.
Qed.

Lemma slice_to_length {A} (l : list A) (stop : Z) :
  Z.of_nat (length (slice_to l stop)) = slice_length (Z.of_nat (length l)) stop.
Proof.
  unfold slice_to, slice_length. rewrite length_firstn.
  destruct (Z.ltb_spec stop 0); lia.
Qed.

Lemma slice_to_prefix {A} (l : list A) (a b : Z) :
  0 <= a <= b -> slice_to l a = firstn (Z.to_nat a) (slice_to l b).
Proof.
  intros H. unfold slice_to.
  destruct (Z.ltb_spec a 0), (Z.ltb_spec b 0); try lia.
  rewrite List.firstn_firstn. f_equal. lia.
Qed.

(** What a successful call returns, in terms of the sorted documents. *)
Lemma get_leaderboard_sorted docs limit items :
  get_leaderboard (ret docs) limit = Ok items <->
  exists ds, sorted sort_key docs = inr ds
    /\ mapM entry_of (slice_to ds (default default_limit limit)) = inr items.
Proof.
  rewrite get_leaderboard_Ok. unfold sorted. split.
  - intros (kl & Hkl & Hi). rewrite Hkl. simpl. eauto.
  - intros (ds & Hs & Hi). destruct (decorate sort_key docs) as [e|kl];
      [discriminate|]. injection Hs as <-. eauto.
Qed.

Lemma sorted_perm docs ds :
  sorted sort_key docs = inr ds ->
  Permutation ds docs /\ StronglySorted spec_before ds.
Proof.
  unfold sorted. destruct (decorate sort_key docs) as [e|kl] eqn:E;
    [discriminate|]. intros [= <-]. apply sorted_docs, E.
Qed.

(** X1: every item of a response is the entry of a stored document, and
    when the limit is not below the number of documents the items are the
    entries of a permutation of all of them. *)
Theorem X1_leaderboard_complete :
  forall docs (limit : Z) items,
    get_leaderboard (ret docs) (Some limit) = Ok items ->
    (forall e, In e items -> exists d, In d docs /\ entry_of d = inr e)
    /\ (Z.of_nat (length docs) <= limit ->
        exists ds,
          Permutation ds docs
          /\ Forall2 (fun d e => entry_of d = inr e) ds items).
Proof.
  intros docs limit items (ds & Hs & Hi)%get_leaderboard_sorted. simpl in Hi.
  destruct (sorted_perm _ _ Hs) as [Hp _]. split.
  - intros e He. apply mapM_inr in Hi.
    destruct (slice_to_firstn ds limit) as [n Hn]. rewrite Hn in Hi.
    assert (Hex : exists d, In d (firstn n ds) /\ entry_of d = inr e).
    { clear Hn. induction Hi as [|d e' l l' Hd Hi IH]; [contradiction|].
      destruct He as [<-|He].
      - exists d. split; [left; reflexivity|exact Hd].
      - destruct (IH He) as (d' & Hin & Hd'). exists d'. split;
          [right; exact Hin|exact Hd']. }
    destruct Hex as (d & Hin & Hd). exists d. split; [|exact Hd].
    eapply Permutation_in; [exact Hp|].
    rewrite <- (firstn_skipn n ds). apply in_or_app. left. exact Hin.
  - intros Hl. exists ds. split; [exact Hp|].
    rewrite slice_to_ge in Hi.
    + apply mapM_inr, Hi.
    + rewrite (Permutation_length Hp). exact Hl.
Qed.

Lemma X1_leaderboard_complete_witness :
  get_leaderboard (ret [doc_slow; doc_missing; doc_fast]) (Some 3)
  = Ok [mkEntry (PStr "Fay") 5 3 4000; mkEntry (PStr "Player") 5 1 0;
        mkEntry (PStr "Sam") 5 3 2000000]
  /\ exists ds,
       Permutation ds [doc_slow; doc_missing; doc_fast]
       /\ Forall2 (fun d e => entry_of d = inr e) ds
            [mkEntry (PStr "Fay") 5 3 4000; mkEntry (PStr "Player") 5 1 0;
             mkEntry (PStr "Sam") 5 3 2000000].
Proof.
  split; [reflexivity|].
  apply (X1_leaderboard_complete [doc_slow; doc_missing; doc_fast] 3);
    [reflexivity | simpl; lia].
Defined.

Lemma filter_same_key (k : key) (kl : list (key * doc)) :
  Forall (fun kd => sort_key kd.2 = inr kd.1) kl ->
  List.filter (same_key k) (map snd kl) = map snd (List.filter (has_key k) kl).
Proof.
  induction 1 as [|[k' d] kl Hk _ IH]; [reflexivity|].
  simpl in Hk. apply sort_key_spec in Hk. subst k'.
  cbn [map List.filter snd]. rewrite IH.
  change (has_key k (spec_key d, d)) with (same_key k d).
  destruct (same_key k d); reflexivity.
Qed.

(** X2: the sort is stable: the documents of any one comparison key stand
    in the sorted sequence in the order in which storage returned them. *)
Theorem X2_sorted_stable :
  forall docs ds,
    sorted sort_key docs = inr ds ->
    forall k, List.filter (same_key k) ds = List.filter (same_key k) docs.
Proof.
  intros docs ds Hs k. unfold sorted in Hs.
  destruct (decorate sort_key docs) as [e|kl] eqn:E; [discriminate|].
  injection Hs as <-. destruct (decorate_spec _ _ _ E) as [Hm HF].
  rewrite <- Hm. rewrite !filter_same_key.
  - rewrite sort_keyed_stable. reflexivity.
  - exact HF.
  - eapply Permutation_Forall; [symmetry; apply sort_keyed_perm|exact HF].
Qed.

Lemma X2_sorted_stable_witness :
  sorted sort_key [doc_slow; doc_fast; doc_slow; doc_missing]
  = inr [doc_fast; doc_missing; doc_slow; doc_slow]
  /\ List.filter (same_key (-5, 2000000))
       [doc_fast; doc_missing; doc_slow; doc_slow]
     = List.filter (same_key (-5, 2000000))
         [doc_slow; doc_fast; doc_slow; doc_missing].
Proof.
  assert (H : sorted sort_key [doc_slow; doc_fast; doc_slow; doc_missing]
              = inr [doc_fast; doc_missing; doc_slow; doc_slow])
    by reflexivity.
  split; [exact H|]. apply (X2_sorted_stable _ _ H).
Defined.

(** X3: a smaller non-negative limit returns a prefix: when the query
    succeeds with limit [b], it succeeds with every limit [a] between 0 and
    [b] and returns the first [a] items of the larger response. *)
Theorem X3_leaderboard_prefix :
  forall docs (a b : Z) items,
    0 <= a <= b ->
    get_leaderboard (ret docs) (Some b) = Ok items ->
    get_leaderboard (ret docs) (Some a) = Ok (firstn (Z.to_nat a) items).
Proof.
  intros docs a b items Hab (ds & Hs & Hi)%get_leaderboard_sorted.
  apply get_leaderboard_sorted. exists ds. split; [exact Hs|].
  simpl in *. rewrite (slice_to_prefix ds a b Hab).
  apply mapM_firstn, Hi.
Qed.

Lemma X3_leaderboard_prefix_witness :
  0 <= 1 <= 3
  /\ get_leaderboard (ret [doc_slow; doc_missing; doc_fast]) (Some 1)
     = Ok (firstn (Z.to_nat 1)
             [mkEntry (PStr "Fay") 5 3 4000; mkEntry (PStr "Player") 5 1 0;
              mkEntry (PStr "Sam") 5 3 2000000]).
Proof.
  split; [lia|].
  apply (X3_leaderboard_prefix [doc_slow; doc_missing; doc_fast] 1 3);
    [lia | reflexivity].
Defined.

(** X4: the number of items of a successful response, for every limit: with
    a negative limit it is max(0, n + limit), so a limit at or below -n
    returns nothing; otherwise it is min(limit, n). *)
Theorem X4_leaderboard_length :
  forall docs limit items,
    get_leaderboard (ret docs) limit = Ok items ->
    Z.of_nat (length items)
    = slice_length (Z.of_nat (length docs)) (default default_limit limit).
Proof.
  intros docs limit items (ds & Hs & Hi)%get_leaderboard_sorted.
  apply mapM_inr, Forall2_length in Hi. rewrite <- Hi, slice_to_length.
  destruct (sorted_perm _ _ Hs) as [Hp _].
  rewrite (Permutation_length Hp). reflexivity.
Qed.

Lemma X4_leaderboard_length_witness :
  get_leaderboard (ret [doc_slow; doc_missing; doc_fast]) (Some (-7)) = Ok []
  /\ Z.of_nat (length (@nil entry))
     = slice_length (Z.of_nat (length [doc_slow; doc_missing; doc_fast]))
         (default default_limit (Some (-7))).
Proof.
  split; [reflexivity|].
  apply (X4_leaderboard_length [doc_slow; doc_missing; doc_fast] (Some (-7))).
  reflexivity.
Defined.

End RankingFacts.

Section RankingErrors.

Import Ranking.

Implicit Types (d : doc) (docs ds : list doc) (limit : option Z).

Lemma mapM_inl {A B} (f : A -> res B) (l : list A) (e : pyexn) :
  mapM f l = inl e -> exists x, In x l /\ f x = inl e.
Proof.
  induction l as [|x l IH]; simpl; [discriminate|].
  destruct (f x) as [e'|y] eqn:E; simpl.
  - intros [= <-]. exists x. auto.
  - destruct (mapM f l) as [e'|ys]; simpl; [|discriminate].
    intros [= <-]. destruct (IH eq_refl) as (x' & Hin & Hx'). eauto.
Qed.

Lemma mapM_succeeds_iff {A B} (f : A -> res B) (l : list A) :
  (exists ys, mapM f l = inr ys) <-> Forall (fun x => exists y, f x = inr y) l.
Proof.
  split; [|apply mapM_total].
  intros [ys H]. apply mapM_inr in H.
  induction H as [|x y l l' Hx _ IH]; constructor; eauto.
Qed.

Lemma int_raises (v : pyval) (e : pyexn) : int v = inl e -> is_int_error e = true.
Proof.
  destruct v as [|b|z|[m x|n|]|s|]; simpl; try discriminate;
    try (intros [= <-]; reflexivity).
  destruct (parse_int s); [discriminate| |]; intros [= <-]; reflexivity.
Qed.

Lemma sort_key_raises_int d e : sort_key d = inl e -> is_int_error e = true.
Proof.
  unfold sort_key. intros H.
  apply bind_inl in H as [H|(p & _ & H)]; [eapply int_raises, H|].
  apply bind_inl in H as [H|(t & _ & H)]; [eapply int_raises, H|discriminate].
Qed.

Lemma entry_of_raises_int d e : entry_of d = inl e -> is_int_error e = true.
Proof.
  unfold entry_of. intros H.
  apply bind_inl in H as [H|(p & _ & H)]; [eapply int_raises, H|].
  apply bind_inl in H as [H|(l & _ & H)]; [eapply int_raises, H|].
  apply bind_inl in H as [H|(t & _ & H)]; [eapply int_raises, H|discriminate].
Qed.

(** With a usable sort key, the entry of a document can be built exactly
    when its level is missing or convertible. *)
Lemma entry_of_succeeds_iff d k :
  sort_key d = inr k ->
  (exists e, entry_of d = inr e) <-> field_ok d "level" = true.
Proof.
  unfold sort_key, entry_of. intros H.
  apply bind_inr in H as (p & Hp & H). apply bind_inr in H as (t & Ht & _).
  rewrite Hp. simpl.
  assert (Hd : exists t', int (get d "duration_ms" (PInt 0)) = inr t').
  { unfold get in *. destruct (d !! "duration_ms"); simpl in *; eauto. }
  destruct Hd as [t' Ht'].
  unfold field_ok, convertible, get in *.
  destruct (d !! "level") as [v|]; simpl.
  - destruct (int v) as [e|l]; simpl.
    + split; [intros [e' [=]]|discriminate].
    + rewrite Ht'. simpl. split; eauto.
  - rewrite Ht'. simpl. split; eauto.
Qed.

Lemma sorted_keys docs ds :
  sorted sort_key docs = inr ds -> Forall (fun d => exists k, sort_key d = inr k) ds.
Proof.
  intros Hs. pose proof Hs as [Hp _]%sorted_perm.
  unfold sorted in Hs. destruct (decorate sort_key docs) as [e|kl] eqn:E;
    [discriminate|]. clear Hs.
  destruct (decorate_spec _ _ _ E) as [Hm HF].
  eapply Permutation_Forall; [symmetry; exact Hp|]. rewrite <- Hm.
  clear -HF. induction HF as [|[k d] kl Hk _ IH]; constructor; eauto.
Qed.

(** X5: a level that int() rejects fails the query only when its record
    ranks within the limit: once the documents can be sorted, the query
    succeeds exactly when every document of the returned slice has a
    missing or convertible level. *)
Theorem X5_level_checked_in_slice_only :
  forall docs limit ds,
    sorted sort_key docs = inr ds ->
    (exists items, get_leaderboard (ret docs) limit = Ok items)
    <-> Forall (fun d => field_ok d "level" = true)
          (slice_to ds (default default_limit limit)).
Proof.
  intros docs limit ds Hs.
  pose proof (sorted_keys _ _ Hs) as Hk.
  assert (Hsl : Forall (fun d => exists k, sort_key d = inr k)
                  (slice_to ds (default default_limit limit))).
  { destruct (slice_to_firstn ds (default default_limit limit)) as [n ->].
    apply List.Forall_forall. intros d Hd.
    rewrite List.Forall_forall in Hk. apply Hk.
    rewrite <- (firstn_skipn n ds). apply in_or_app. left. exact Hd. }
  transitivity (exists items,
                   mapM entry_of (slice_to ds (default default_limit limit))
                   = inr items).
  - split.
    + intros [items (ds' & Hs' & Hi)%get_leaderboard_sorted].
      assert (ds' = ds) by congruence. subst. eauto.
    + intros [items Hi]. exists items. apply get_leaderboard_sorted. eauto.
  - rewrite mapM_succeeds_iff. rewrite !List.Forall_forall in *.
    split; intros H d Hd; destruct (Hsl d Hd) as [k Hkd].
    + apply (entry_of_succeeds_iff d k Hkd), H, Hd.
    + apply (entry_of_succeeds_iff d k Hkd), H, Hd.
Qed.

Lemma X5_level_checked_in_slice_only_witness :
  sorted sort_key [doc_fast; doc_bad_level]
  = inr [doc_fast; doc_bad_level]
  /\ get_leaderboard (ret [doc_fast; doc_bad_level]) (Some 1)
     = Ok [mkEntry (PStr "Fay") 5 3 4000]
  /\ get_leaderboard (ret [doc_fast; doc_bad_level]) (Some 2)
     = Failed (mkHTTP 500 (DStr (TypeError_int PNone)))
  /\ ((exists items,
          get_leaderboard (ret [doc_fast; doc_bad_level]) (Some 1) = Ok items)
      <-> Forall (fun d => field_ok d "level" = true)
            (slice_to [doc_fast; doc_bad_level] (default default_limit (Some 1)))).
Proof.
  split; [reflexivity|]. split; [reflexivity|]. split; [reflexivity|].
  apply (X5_level_checked_in_slice_only [doc_fast; doc_bad_level] (Some 1)).
  reflexivity.
Defined.

(** X6: every failure of the query is an HTTP 500 whose detail is the text
    of one exception: the one [get_documents] raised, or a conversion error
    of int() on a stored field; and a failure of [get_documents] always
    fails the query that way. *)
Theorem X6_leaderboard_failures :
  forall (get_documents : res (list doc)) limit,
    (forall h,
        get_leaderboard get_documents limit = Failed h ->
        exists e,
          h = mkHTTP 500 (DStr e)
          /\ (get_documents = inl e \/ is_int_error e = true))
    /\ (forall e,
          get_documents = inl e ->
          get_leaderboard get_documents limit = Failed (mkHTTP 500 (DStr e))).
Proof.
  intros gd limit. split.
  - intros h H. unfold get_leaderboard in H.
    destruct gd as [e|docs]; simpl in H.
    + injection H as <-. eauto.
    + destruct (sorted sort_key docs) as [e|ds] eqn:Hs; simpl in H.
      * injection H as <-. exists e. split; [reflexivity|]. right.
        unfold sorted, decorate in Hs.
        apply bind_inl in Hs as [Hs|(kl & _ & Hs)]; [|discriminate].
        apply mapM_inl in Hs as (d & _ & Hd).
        apply bind_inl in Hd as [Hd|(k & _ & Hd)]; [|discriminate].
        eapply sort_key_raises_int, Hd.
      * destruct (mapM entry_of _) as [e|items] eqn:Hi; [|discriminate].
        injection H as <-. exists e. split; [reflexivity|]. right.
        apply mapM_inl in Hi as (d & _ & Hd).
        eapply entry_of_raises_int, Hd.
  - intros e ->. reflexivity.
Qed.

Lemma X6_leaderboard_failures_witness :
  get_leaderboard (ret [doc_fast; doc_bad_points]) None
  = Failed (mkHTTP 500 (DStr (ValueError_int_literal "abc")))
  /\ exists e,
       mkHTTP 500 (DStr (ValueError_int_literal "abc")) = mkHTTP 500 (DStr e)
       /\ (ret [doc_fast; doc_bad_points] = inl e \/ is_int_error e = true).
Proof.
  split; [reflexivity|].
  apply (proj1 (X6_leaderboard_failures (ret [doc_fast; doc_bad_points]) None)).
  reflexivity.
Defined.




End RankingErrors.

(** ** The URL validation *)

Section ValidationFacts.

Local Open Scope N_scope.

Implicit Types (w : env) (url : ustr).

Lemma accepts_iff_match w url :
  accepts w url <-> re_match YOUTUBE_URL_RE url = true.
Proof.
  split; [|apply download_accepts].
  intros Hacc. destruct (re_match YOUTUBE_URL_RE url) eqn:E; [reflexivity|].
  exfalso. apply Hacc. rewrite (download_rejects w url E). reflexivity.
Qed.

(** X8: the pattern is not anchored at the end: an accepted URL stays
    accepted whatever is appended to it. *)
Theorem X8_accepts_any_suffix :
  forall w url suffix, accepts w url -> accepts w (url ++ suffix).
Proof.
  intros w url suffix. rewrite !accepts_iff_match, !re_match_spec.
  intros (s1 & s2 & -> & H). exists s1, (s2 ++ suffix).
  rewrite <- app_assoc. auto.
Qed.

Lemma X8_accepts_any_suffix_witness :
  accepts env_ok url_watch /\ accepts env_ok (url_watch ++ [10; 32; 60]).
Proof.
  assert (H : accepts env_ok url_watch) by (vm_compute; discriminate).
  split; [exact H|]. apply (X8_accepts_any_suffix env_ok url_watch), H.
Defined.

Lemma casefold_below_capitals (x c : N) :
  casefold x = c -> c < 65 -> x = c.
Proof.
  unfold casefold.
  destruct (N.leb_spec 65 x), (N.leb_spec x 90); cbn [andb];
    try (destruct (N.eqb_spec x 383)); try (destruct (N.eqb_spec x 8490));
    lia.
Qed.

Lemma same_fold_map (s s' : ustr) :
  Forall2 (fun x y => casefold x = casefold y) s s' ->
  map casefold s = map casefold s'.
Proof. induction 1; simpl; congruence. Qed.

Lemma same_fold_shape (url url' : ustr) :
  Forall2 (fun x y => casefold x = casefold y) url url' ->
  spec_accepts_no_lf url -> spec_accepts_no_lf url'.
Proof.
  intros HF (scheme & www & host & rest & -> & Hs & Hw & Hh & x & rest' & -> & Hx).
  apply Forall2_app_inv_l in HF as (scheme' & k1 & Fs & HF & ->).
  apply Forall2_app_inv_l in HF as (www' & k2 & Fw & HF & ->).
  apply Forall2_app_inv_l in HF as (host' & k3 & Fh & HF & ->).
  apply Forall2_app_inv_l in HF as (sl' & k4 & Fsl & HF & ->).
  inversion Fsl as [|a b l l' Hab Hnil]; subst. inversion Hnil; subst.
  inversion HF as [|a' y l1 rest'' Hxy Hrest]; subst.
  assert (b = 47).
  { apply casefold_below_capitals; [symmetry; exact Hab|reflexivity]. }
  subst b.
  exists scheme', www', host', (y :: rest''). split; [reflexivity|].
  apply same_fold_map in Fs, Fw, Fh. unfold ci_eq in *.
  split.
  { destruct Hs as [->|[Hs|Hs]].
    - left. inversion Fs. destruct scheme'; [reflexivity|discriminate].
    - right; left. congruence.
    - right; right. congruence. }
  split.
  { destruct Hw as [->|Hw].
    - left. destruct www'; [reflexivity|discriminate].
    - right. congruence. }
  split.
  { destruct Hh as [Hh|Hh]; [left|right]; congruence. }
  exists y, rest''. split; [reflexivity|].
  intros ->. apply Hx. apply casefold_below_capitals; [exact Hxy|reflexivity].
Qed.

Lemma same_fold_sym (s s' : ustr) :
  Forall2 (fun x y => casefold x = casefold y) s s' ->
  Forall2 (fun x y => casefold x = casefold y) s' s.
Proof. induction 1; constructor; auto. Qed.

(** X9: validation looks at the URL up to case only: two strings whose
    code points agree one by one after case folding are both accepted or
    both rejected. *)
Theorem X9_validation_up_to_case :
  forall w url url',
    Forall2 (fun x y => casefold x = casefold y) url url' ->
    (accepts w url <-> accepts w url').
Proof.
  intros w url url' HF. rewrite !accepts_iff_match, !re_match_shape.
  split; apply same_fold_shape; [exact HF | apply same_fold_sym, HF].
Qed.

Lemma X9_validation_up_to_case_witness :
  Forall2 (fun x y => casefold x = casefold y)
    (of_string "HTTPS://WWW.YOUTUBE.COM/x") (of_string "https://www.youtube.com/x")
  /\ (accepts env_ok (of_string "HTTPS://WWW.YOUTUBE.COM/x")
      <-> accepts env_ok (of_string "https://www.youtube.com/x")).
Proof.
  assert (H : Forall2 (fun x y => casefold x = casefold y)
                (of_string "HTTPS://WWW.YOUTUBE.COM/x")
                (of_string "https://www.youtube.com/x"))
    by (repeat constructor).
  split; [exact H|]. apply (X9_validation_up_to_case env_ok _ _ H).
Defined.




End ValidationFacts.

(** ** The handler's effects *)

Section HandlerEffects.

Import Pipeline.

Implicit Types (w : env) (url : ustr) (acts : list action) (t : list event).

Lemma before_last_dot_mp4 (s : string) :
  before_last_dot (s +:+ ".mp4") = Some s.
Proof.
  induction s as [|c s IH]; [reflexivity|].
  change (String c s +:+ ".mp4") with (String c (s +:+ ".mp4")).
  cbn [before_last_dot]. rewrite IH. reflexivity.
Qed.

Lemma rsplit_dot_head_mp4 (s : string) : rsplit_dot_head (s +:+ ".mp4") = s.
Proof. unfold rsplit_dot_head. rewrite before_last_dot_mp4. reflexivity. Qed.

(** X11: [run_download] returns the path the engine prepared, or that path
    with its extension replaced by .mp4; the second only when the reported
    extension is not mp4 and the .mp4 file exists. Either way the path has
    the stem of the prepared one, and with the extension mp4 no file is
    probed. *)
Theorem X11_run_download_path :
  forall w url o path evs,
    run_download w url o = (inr path, evs) ->
    exists i,
      extract_info w url o = inr i
      /\ (path = prepared_filename i
          \/ (path = rsplit_dot_head (prepared_filename i) +:+ ".mp4"
              /\ info_ext i <> Some "mp4"
              /\ path_exists w path = true))
      /\ rsplit_dot_head path = rsplit_dot_head (prepared_filename i)
      /\ (info_ext i = Some "mp4" ->
          path = prepared_filename i /\ evs = [EEngine url o]).
Proof.
  intros w url o path evs. unfold run_download.
  destruct (extract_info w url o) as [e|i]; [discriminate|].
  intros H. exists i. split; [reflexivity|].
  destruct (bool_decide (info_ext i = Some "mp4")) eqn:B; simpl in H.
  - apply bool_decide_eq_true in B. injection H as <- <-.
    repeat split; auto.
  - apply bool_decide_eq_false in B.
    destruct (path_exists w (rsplit_dot_head (prepared_filename i) +:+ ".mp4"))
      eqn:P; injection H as <- <-.
    + split; [right; auto|]. split; [apply rsplit_dot_head_mp4|].
      intros E. contradiction.
    + split; [left; reflexivity|]. split; [reflexivity|].
      intros E. contradiction.
Qed.

Lemma X11_run_download_path_witness :
  run_download env_merged url_watch (make_opts "/tmp/yt_k3")
  = (inr "/tmp/yt_k3/clip.mp4",
     [EEngine url_watch (make_opts "/tmp/yt_k3"); EExists "/tmp/yt_k3/clip.mp4"])
  /\ exists i,
       extract_info env_merged url_watch (make_opts "/tmp/yt_k3") = inr i
       /\ ("/tmp/yt_k3/clip.mp4" = prepared_filename i
           \/ ("/tmp/yt_k3/clip.mp4"
               = rsplit_dot_head (prepared_filename i) +:+ ".mp4"
               /\ info_ext i <> Some "mp4"
               /\ path_exists env_merged "/tmp/yt_k3/clip.mp4" = true))
       /\ rsplit_dot_head "/tmp/yt_k3/clip.mp4"
          = rsplit_dot_head (prepared_filename i)
       /\ (info_ext i = Some "mp4" ->
           "/tmp/yt_k3/clip.mp4" = prepared_filename i
           /\ [EEngine url_watch (make_opts "/tmp/yt_k3");
               EExists "/tmp/yt_k3/clip.mp4"]
              = [EEngine url_watch (make_opts "/tmp/yt_k3")]).
Proof.
  split; [reflexivity|].
  apply (X11_run_download_path env_merged url_watch (make_opts "/tmp/yt_k3")).
  reflexivity.
Defined.

End HandlerEffects.

Section JobTraces.

Import Pipeline.

Implicit Types (w : env) (url : ustr) (acts : list action) (t : list event)
  (g : gen_state).

Lemma count_cons (p : event -> bool) (e : event) t :
  count p (e :: t) = ((if p e then 1 else 0) + count p t)%nat.
Proof.
  unfold count. rewrite filter_cons.
  destruct (decide (p e = true)) as [H|H].
  - rewrite H. reflexivity.
  - apply not_true_is_false in H. rewrite H. reflexivity.
Qed.

Lemma count_app (p : event -> bool) t1 t2 :
  count p (t1 ++ t2) = (count p t1 + count p t2)%nat.
Proof. unfold count. rewrite filter_app, length_app. reflexivity. Qed.

Lemma count_none (p : event -> bool) t :
  Forall (fun e => p e = false) t -> count p t = 0%nat.
Proof.
  induction 1 as [|e t He _ IH]; [reflexivity|].
  rewrite count_cons, He, IH. reflexivity.
Qed.

Lemma run_download_events w url o r evs :
  run_download w url o = (r, evs) ->
  exists probes,
    evs = EEngine url o :: probes /\ Forall (fun e => is_probe e = true) probes.
Proof.
  unfold run_download. destruct (extract_info w url o) as [e|i].
  - intros [= <- <-]. exists []. split; [reflexivity|constructor].
  - destruct (negb _).
    + destruct (path_exists w _); intros [= <- <-]; eexists;
        (split; [reflexivity|repeat constructor]).
    + intros [= <- <-]. exists []. split; [reflexivity|constructor].
Qed.

(** The four shapes of the handler's trace. *)
Lemma download_trace w url :
  (re_match YOUTUBE_URL_RE url = false /\ (download_youtube w url).2 = [])
  \/ (re_match YOUTUBE_URL_RE url = true
      /\ (exists e, import_yt_dlp w = inl e)
      /\ (download_youtube w url).2 = [EImport])
  \/ (re_match YOUTUBE_URL_RE url = true
      /\ (exists u, import_yt_dlp w = inr u)
      /\ (exists e, mkdtemp w = inl e)
      /\ (download_youtube w url).2 = [EImport])
  \/ (re_match YOUTUBE_URL_RE url = true
      /\ (exists u, import_yt_dlp w = inr u)
      /\ exists dir probes,
           mkdtemp w = inr dir
           /\ (download_youtube w url).2
              = EImport :: EMkdtemp dir :: EEngine url (make_opts dir) :: probes
           /\ Forall (fun e => is_probe e = true) probes).
Proof.
  unfold download_youtube.
  destruct (re_match YOUTUBE_URL_RE url); [right|left; auto]. simpl.
  destruct (import_yt_dlp w) as [e|u]; [left; eauto|right].
  destruct (mkdtemp w) as [e|dir]; [left; eauto 6|right].
  split; [reflexivity|]. split; [eauto|]. exists dir.
  destruct (run_download w url (make_opts dir)) as [r evs] eqn:R.
  destruct (run_download_events _ _ _ _ _ R) as (probes & -> & HF).
  destruct r as [e|path].
  - exists probes. auto.
  - exists (probes ++ [EExists path]).
    split; [reflexivity|]. split.
    + destruct (path_exists w path); reflexivity.
    + apply Forall_app. split; [exact HF|repeat constructor].
Qed.

Lemma gen_step_events w a g :
  Forall (fun e => is_stream_event e = true) (gen_step w a g).2.
Proof.
  assert (L : forall p d rest n,
             Forall (fun e => is_stream_event e = true) (read_loop w p d rest n).2).
  { intros p d rest n. unfold read_loop. destruct (file_read w n) as [e|u].
    - rewrite finally_spec. repeat constructor.
    - destruct (firstn CHUNK_SIZE rest); [rewrite finally_spec|];
        repeat constructor. }
  destruct a, g as [p d|p d rest n|]; cbn [gen_step gen_next gen_close];
    try solve [constructor].
  - destruct (file_open w p) as [e|content].
    + rewrite finally_spec. repeat constructor.
    + specialize (L p d content 0%nat).
      destruct (read_loop w p d content 0) as [[r g'] evs].
      constructor; [reflexivity|exact L].
  - apply L.
  - rewrite finally_spec. repeat constructor.
Qed.

Lemma drive_events w acts : forall g,
  Forall (fun e => is_stream_event e = true) (drive w g acts).2.
Proof.
  induction acts as [|a acts IH]; intros g; [constructor|].
  cbn [drive]. pose proof (gen_step_events w a g) as Hs.
  destruct (gen_step w a g) as [[r g'] evs]. specialize (IH g').
  destruct (drive w g' acts) as [[rs g''] evs']. simpl in *.
  apply Forall_app. auto.
Qed.

(** The trace of a job: the handler's, then what the generator does. *)
Lemma run_job_trace w url acts :
  exists post,
    (run_job w url acts).2 = (download_youtube w url).2 ++ post
    /\ Forall (fun e => is_stream_event e = true) post.
Proof.
  unfold run_job. destruct (download_youtube w url) as [o evs].
  destruct o as [h|e|r]; try (exists []; rewrite app_nil_r; split;
                               [reflexivity|constructor]).
  pose proof (drive_events w acts (body_iterator r)) as HF.
  destruct (drive w (body_iterator r) acts) as [[rs g] evs'].
  exists evs'. split; [reflexivity|exact HF].
Qed.

Lemma stream_event_not (p : event -> bool) t :
  (forall e, is_stream_event e = true -> p e = false) ->
  Forall (fun e => is_stream_event e = true) t ->
  Forall (fun e => p e = false) t.
Proof. intros H HF. eapply Forall_impl; [exact HF|]. exact H. Qed.

Lemma probe_not (p : event -> bool) t :
  (forall e, is_probe e = true -> p e = false) ->
  Forall (fun e => is_probe e = true) t ->
  Forall (fun e => p e = false) t.
Proof. intros H HF. eapply Forall_impl; [exact HF|]. exact H. Qed.

Lemma not_in_none (p : event -> bool) (e : event) t :
  p e = true -> Forall (fun e' => p e' = false) t -> ~ In e t.
Proof.
  intros He HF Hin. rewrite List.Forall_forall in HF.
  specialize (HF e Hin). congruence.
Qed.

(** X12: no retry and no stray engine call: in a whole job at most one
    scratch directory is created and the engine runs at most once; when it
    runs, it runs on the URL of the request with the options that place its
    output in the scratch directory created just before. *)
Theorem X12_engine_runs_once_in_scratch :
  forall w url acts,
    (count is_mkdtemp (run_job w url acts).2 <= 1)%nat
    /\ (count is_engine (run_job w url acts).2 <= 1)%nat
    /\ forall u o,
        In (EEngine u o) (run_job w url acts).2 ->
        u = url
        /\ exists dir rest,
             mkdtemp w = inr dir
             /\ o = make_opts dir
             /\ outtmpl o = path_join dir "%(title).200B.%(ext)s"
             /\ (run_job w url acts).2
                = EImport :: EMkdtemp dir :: EEngine url (make_opts dir) :: rest.
Proof.
  intros w url acts.
  destruct (run_job_trace w url acts) as (post & -> & Hpost).
  assert (Pm : Forall (fun e => is_mkdtemp e = false) post).
  { eapply stream_event_not; [|exact Hpost]. intros []; simpl; congruence. }
  assert (Pe : Forall (fun e => is_engine e = false) post).
  { eapply stream_event_not; [|exact Hpost]. intros []; simpl; congruence. }
  destruct (download_trace w url)
    as [[_ ->]|[(_ & _ & ->)|[(_ & _ & _ & ->)|(_ & _ & dir & probes & Hd & -> & Hpr)]]].
  - simpl. rewrite (count_none _ _ Pm), (count_none _ _ Pe).
    split; [lia|]. split; [lia|].
    intros u o Hin. exfalso. revert Hin.
    apply (not_in_none is_engine); [reflexivity|assumption].
  - cbn [app]. rewrite !count_cons, (count_none _ _ Pm), (count_none _ _ Pe).
    simpl. split; [lia|]. split; [lia|].
    intros u o [Hin|Hin]; [discriminate|].
    exfalso. revert Hin. apply (not_in_none is_engine); [reflexivity|assumption].
  - cbn [app]. rewrite !count_cons, (count_none _ _ Pm), (count_none _ _ Pe).
    simpl. split; [lia|]. split; [lia|].
    intros u o [Hin|Hin]; [discriminate|].
    exfalso. revert Hin. apply (not_in_none is_engine); [reflexivity|assumption].
  - assert (Qm : Forall (fun e => is_mkdtemp e = false) probes).
    { eapply probe_not; [|exact Hpr]. intros []; simpl; congruence. }
    assert (Qe : Forall (fun e => is_engine e = false) probes).
    { eapply probe_not; [|exact Hpr]. intros []; simpl; congruence. }
    cbn [app]. rewrite !count_cons, !count_app.
    rewrite (count_none _ _ Pm), (count_none _ _ Pe),
      (count_none _ _ Qm), (count_none _ _ Qe).
    simpl. split; [lia|]. split; [lia|].
    intros u o [Hin|[Hin|[Hin|Hin]]]; try discriminate.
    + injection Hin as <- <-. split; [reflexivity|].
      exists dir, (probes ++ post). repeat split. exact Hd.
    + exfalso. apply in_app_or in Hin as [Hin|Hin]; revert Hin;
        (apply (not_in_none is_engine); [reflexivity|assumption]).
Qed.

Lemma X12_engine_runs_once_in_scratch_witness :
  In (EEngine url_watch (make_opts "/tmp/yt_k3"))
     (run_job env_ok url_watch [Next; Next; Close]).2
  /\ url_watch = url_watch
  /\ exists dir rest,
       mkdtemp env_ok = inr dir
       /\ make_opts "/tmp/yt_k3" = make_opts dir
       /\ outtmpl (make_opts "/tmp/yt_k3")
          = path_join dir "%(title).200B.%(ext)s"
       /\ (run_job env_ok url_watch [Next; Next; Close]).2
          = EImport :: EMkdtemp dir :: EEngine url_watch (make_opts dir) :: rest.
Proof.
  assert (H : In (EEngine url_watch (make_opts "/tmp/yt_k3"))
                 (run_job env_ok url_watch [Next; Next; Close]).2)
    by (right; right; left; reflexivity).
  split; [exact H|].
  apply (proj2 (proj2 (X12_engine_runs_once_in_scratch env_ok url_watch
                         [Next; Next; Close])) _ _ H).
Defined.

(** X13: a scratch directory is created exactly when the URL is valid, the
    engine can be imported and mkdtemp succeeds: neither a rejected URL nor
    a missing engine leaves a directory behind. *)
Theorem X13_scratch_created_iff :
  forall w url acts dir,
    In (EMkdtemp dir) (run_job w url acts).2
    <-> re_match YOUTUBE_URL_RE url = true
        /\ (exists u, import_yt_dlp w = inr u)
        /\ mkdtemp w = inr dir.
Proof.
  intros w url acts dir.
  destruct (run_job_trace w url acts) as (post & -> & Hpost).
  assert (Pm : ~ In (EMkdtemp dir) post).
  { apply (not_in_none is_mkdtemp); [reflexivity|].
    eapply stream_event_not; [|exact Hpost]. intros []; simpl; congruence. }
  destruct (download_trace w url)
    as [[Hm ->]|[(Hm & [e Hi] & ->)|[(Hm & Hi & [e Hd] & ->)
                                    |(Hm & Hi & dir' & probes & Hd & -> & Hpr)]]].
  - split; [intros Hin; contradiction|]. intros (Hm' & _). congruence.
  - split.
    + intros [Hin|Hin]; [discriminate|contradiction].
    + intros (_ & [u Hu] & _). congruence.
  - split.
    + intros [Hin|Hin]; [discriminate|contradiction].
    + intros (_ & _ & Hd'). congruence.
  - split.
    + intros [Hin|[Hin|[Hin|Hin]]]; try discriminate.
      * injection Hin as <-. auto.
      * exfalso. apply in_app_or in Hin as [Hin|Hin]; [|contradiction].
        revert Hin. apply (not_in_none is_mkdtemp); [reflexivity|].
        eapply probe_not; [|exact Hpr]. intros []; simpl; congruence.
    + intros (_ & _ & Hd'). right. left. congruence.
Qed.

Lemma X13_scratch_created_iff_witness :
  (In (EMkdtemp "/tmp/yt_k3") (run_job env_ok url_watch [Next]).2
   <-> re_match YOUTUBE_URL_RE url_watch = true
       /\ (exists u, import_yt_dlp env_ok = inr u)
       /\ mkdtemp env_ok = inr "/tmp/yt_k3")
  /\ ~ In (EMkdtemp "/tmp/yt_k3") (run_job env_no_engine url_watch [Next]).2.
Proof.
  split.
  - apply (X13_scratch_created_iff env_ok url_watch [Next] "/tmp/yt_k3").
  - intros H.
    apply (X13_scratch_created_iff env_no_engine url_watch [Next] "/tmp/yt_k3")
      in H as (_ & [u Hu] & _).
    discriminate Hu.
Defined.

End JobTraces.

(** ** The streamed response *)

Section StreamingFacts.

Import Pipeline.

Implicit Types (w : env) (url : ustr) (acts : list action) (t : list event)
  (g : gen_state).

Lemma basename_no_slash (s : string) : no_slash (basename s).
Proof.
  unfold no_slash. induction s as [|c s IH]; [intros []|].
  cbn [basename].
  destruct (existsb (Ascii.eqb "/") (list_ascii_of_string s)) eqn:E; [exact IH|].
  assert (Hs : ~ In "/"%char (list_ascii_of_string s)).
  { intros Hin. apply not_true_iff_false in E. apply E.
    apply existsb_exists. exists "/"%char. split; [exact Hin|reflexivity]. }
  destruct (Ascii.eqb_spec c "/") as [->|Hc]; [exact Hs|].
  intros [Hin|Hin]; [congruence|contradiction].
Qed.

Lemma basename_suffix (s : string) : exists pre, s = pre +:+ basename s.
Proof.
  induction s as [|c s [pre IH]]; [exists EmptyString; reflexivity|].
  cbn [basename].
  destruct (existsb (Ascii.eqb "/") (list_ascii_of_string s)).
  - exists (String c pre).
    change (String c pre +:+ basename s) with (String c (pre +:+ basename s)).
    rewrite <- IH. reflexivity.
  - destruct (Ascii.eqb c "/").
    + exists (String c EmptyString). reflexivity.
    + exists EmptyString. reflexivity.
Qed.

Lemma filter_none (p : event -> bool) t :
  Forall (fun e => p e = false) t -> List.filter p t = [].
Proof.
  induction 1 as [|e t He _ IH]; [reflexivity|]. simpl. rewrite He. exact IH.
Qed.

(** What the handler did when it answers with a stream. *)
Lemma streaming_inv w url r t :
  download_youtube w url = (Streaming r, t) ->
  exists dir path probes,
    mkdtemp w = inr dir
    /\ path_exists w path = true
    /\ r = mkResponse (GCreated path dir) "video/mp4" [disposition (basename path)]
    /\ t = EImport :: EMkdtemp dir :: EEngine url (make_opts dir)
             :: probes ++ [EExists path]
    /\ Forall (fun e => is_probe e = true) probes.
Proof.
  unfold download_youtube.
  destruct (re_match YOUTUBE_URL_RE url); simpl; [|discriminate].
  destruct (import_yt_dlp w) as [e|u]; [discriminate|].
  destruct (mkdtemp w) as [e|dir]; [discriminate|].
  destruct (run_download w url (make_opts dir)) as [[e|path] evs] eqn:R;
    [discriminate|].
  destruct (run_download_events _ _ _ _ _ R) as (probes & -> & HF).
  destruct (path_exists w path) eqn:P; simpl; [|discriminate].
  intros [= <- <-]. exists dir, path, probes. repeat split; auto.
Qed.

(** X14: a streamed answer is built on a file that exists: its body is the
    generator, not yet started, over that file and the scratch directory
    just created; it declares video/mp4 and an attachment whose file name
    is the last component of the path, without any slash; nothing has been
    removed so far. *)
Theorem X14_streaming_response :
  forall w url r t,
    download_youtube w url = (Streaming r, t) ->
    exists dir path,
      mkdtemp w = inr dir
      /\ path_exists w path = true
      /\ body_iterator r = GCreated path dir
      /\ media_type r = "video/mp4"
      /\ headers r = [disposition (basename path)]
      /\ no_slash (basename path)
      /\ (exists pre, path = pre +:+ basename path)
      /\ cleanup_events t = [].
Proof.
  intros w url r t (dir & path & probes & Hd & Hp & -> & -> & HF)%streaming_inv.
  exists dir, path. repeat split; auto.
  - apply basename_no_slash.
  - apply basename_suffix.
  - unfold cleanup_events. cbn [List.filter is_remove is_rmdir orb].
    rewrite List.filter_app. rewrite filter_none; [reflexivity|].
    eapply Forall_impl; [exact HF|]. intros []; simpl; congruence.
Qed.

Lemma X14_streaming_response_witness :
  download_youtube env_ok url_watch
  = (Streaming (mkResponse (GCreated video_path "/tmp/yt_k3") "video/mp4"
                  [disposition "clip.mp4"]),
     [EImport; EMkdtemp "/tmp/yt_k3";
      EEngine url_watch (make_opts "/tmp/yt_k3"); EExists video_path])
  /\ exists dir path,
       mkdtemp env_ok = inr dir
       /\ path_exists env_ok path = true
       /\ GCreated video_path "/tmp/yt_k3" = GCreated path dir
       /\ "video/mp4" = "video/mp4"
       /\ [disposition "clip.mp4"] = [disposition (basename path)]
       /\ no_slash (basename path)
       /\ (exists pre, path = pre +:+ basename path)
       /\ cleanup_events
            [EImport; EMkdtemp "/tmp/yt_k3";
             EEngine url_watch (make_opts "/tmp/yt_k3"); EExists video_path]
          = [].
Proof.
  split; [reflexivity|].
  apply (X14_streaming_response env_ok url_watch
           (mkResponse (GCreated video_path "/tmp/yt_k3") "video/mp4"
              [disposition "clip.mp4"])).
  reflexivity.
Defined.

(** Any run of the generator makes the cleanup at most once, on its own
    file and directory. *)
Lemma drive_cleanup_once w path tmpdir acts :
  cleanup_events (drive w (GCreated path tmpdir) acts).2 = []
  \/ cleanup_events (drive w (GCreated path tmpdir) acts).2
     = [ERemove path; ERmdir tmpdir].
Proof.
  destruct acts as [|[|] acts].
  - left. reflexivity.
  - destruct (drive w (GCreated path tmpdir) (Next :: acts)) as [[rs g] t] eqn:D.
    destruct (drive_started _ _ _ _ _ _ _ D) as [[[_ C]|[_ C]] _]; simpl; auto.
  - left. cbn [drive gen_step gen_close].
    destruct (drive w GFinished acts) as [[rs g] t] eqn:D.
    apply drive_finished in D as (_ & -> & _). reflexivity.
Qed.

(** X15: whatever the framework does with the generator, started or not,
    the cleanup is attempted at most once and only on the job's own file
    and directory, the file first; a finished generator does nothing
    more. *)
Theorem X15_cleanup_at_most_once :
  forall w path tmpdir acts,
    (cleanup_events (drive w (GCreated path tmpdir) acts).2 = []
     \/ cleanup_events (drive w (GCreated path tmpdir) acts).2
        = [ERemove path; ERmdir tmpdir])
    /\ (forall more,
          (drive w (GCreated path tmpdir) acts).1.2 = GFinished ->
          (drive w (GCreated path tmpdir) (acts ++ more)).2
          = (drive w (GCreated path tmpdir) acts).2).
Proof.
  intros w path tmpdir acts. split; [apply drive_cleanup_once|].
  intros more. generalize (GCreated path tmpdir) as g.
  induction acts as [|a acts IH]; intros g.
  - simpl. intros ->. destruct (drive w GFinished more) as [[rs g'] t] eqn:D.
    apply drive_finished in D as (_ & -> & _). reflexivity.
  - cbn [app drive]. destruct (gen_step w a g) as [[r g1] t1].
    specialize (IH g1).
    destruct (drive w g1 acts) as [[rs g2] t2].
    destruct (drive w g1 (acts ++ more)) as [[rs' g2'] t2'].
    simpl in *. intros H. rewrite (IH H). reflexivity.
Qed.

Lemma X15_cleanup_at_most_once_witness :
  (drive env_ok (GCreated video_path "/tmp/yt_k3") [Next; Next]).1.2 = GFinished
  /\ (drive env_ok (GCreated video_path "/tmp/yt_k3")
        ([Next; Next] ++ [Close; Next; Close])).2
     = (drive env_ok (GCreated video_path "/tmp/yt_k3") [Next; Next]).2
  /\ cleanup_events
       (drive env_ok (GCreated video_path "/tmp/yt_k3") [Next; Next]).2
     = [ERemove video_path; ERmdir "/tmp/yt_k3"].
Proof.
  split; [reflexivity|]. split; [|reflexivity].
  apply (proj2 (X15_cleanup_at_most_once env_ok video_path "/tmp/yt_k3"
                  [Next; Next])).
  reflexivity.
Defined.

(** X16: in a job that answers with a stream exactly one scratch directory
    was created, and the only removals ever attempted are those of the
    streamed file and of that same directory. *)
Theorem X16_cleanup_targets_own_scratch :
  forall w url acts r rs t,
    run_job w url acts = (Streaming r, rs, t) ->
    exists dir path,
      body_iterator r = GCreated path dir
      /\ List.filter is_mkdtemp t = [EMkdtemp dir]
      /\ (cleanup_events t = [] \/ cleanup_events t = [ERemove path; ERmdir dir]).
Proof.
  intros w url acts r rs t. unfold run_job.
  destruct (download_youtube w url) as [o evs] eqn:D.
  destruct o as [h|e|r']; try discriminate.
  apply streaming_inv in D as (dir & path & probes & Hd & Hp & -> & -> & HF).
  cbn [body_iterator].
  pose proof (drive_cleanup_once w path dir acts) as Hc.
  pose proof (drive_events w acts (GCreated path dir)) as He.
  destruct (drive w (GCreated path dir) acts) as [[rs' g] evs'].
  intros [= <- <- <-]. exists dir, path. simpl in Hc, He.
  assert (Pp : forall p : event -> bool,
             (forall e, is_probe e = true -> p e = false) ->
             List.filter p (probes ++ [EExists path]) = []).
  { intros p Hp'. apply filter_none, Forall_app. split.
    - eapply Forall_impl; [exact HF|]. exact Hp'.
    - repeat constructor. apply Hp'. reflexivity. }
  split; [reflexivity|]. split.
  - cbn [List.filter is_mkdtemp app]. rewrite List.filter_app, Pp.
    + rewrite filter_none; [reflexivity|].
      eapply Forall_impl; [exact He|]. intros []; simpl; congruence.
    + intros []; simpl; congruence.
  - unfold cleanup_events in *.
    cbn [List.filter is_remove is_rmdir orb app].
    rewrite List.filter_app, Pp; [exact Hc|].
    intros []; simpl; congruence.
Qed.

Lemma X16_cleanup_targets_own_scratch_witness :
  run_job env_ok url_watch [Next; Close]
  = (Streaming (mkResponse (GCreated video_path "/tmp/yt_k3") "video/mp4"
                  [disposition "clip.mp4"]),
     [Yield [Byte.x41; Byte.x42; Byte.x43]; Closed],
     [EImport; EMkdtemp "/tmp/yt_k3";
      EEngine url_watch (make_opts "/tmp/yt_k3"); EExists video_path;
      EOpen video_path; ERead video_path; ECloseFile video_path;
      ERemove video_path; ERmdir "/tmp/yt_k3"])
  /\ exists dir path,
       GCreated video_path "/tmp/yt_k3" = GCreated path dir
       /\ List.filter is_mkdtemp
            [EImport; EMkdtemp "/tmp/yt_k3";
             EEngine url_watch (make_opts "/tmp/yt_k3"); EExists video_path;
             EOpen video_path; ERead video_path; ECloseFile video_path;
             ERemove video_path; ERmdir "/tmp/yt_k3"]
          = [EMkdtemp dir]
       /\ (cleanup_events
             [EImport; EMkdtemp "/tmp/yt_k3";
              EEngine url_watch (make_opts "/tmp/yt_k3"); EExists video_path;
              EOpen video_path; ERead video_path; ECloseFile video_path;
              ERemove video_path; ERmdir "/tmp/yt_k3"] = []
           \/ cleanup_events
                [EImport; EMkdtemp "/tmp/yt_k3";
                 EEngine url_watch (make_opts "/tmp/yt_k3"); EExists video_path;
                 EOpen video_path; ERead video_path; ECloseFile video_path;
                 ERemove video_path; ERmdir "/tmp/yt_k3"]
              = [ERemove path; ERmdir dir]).
Proof.
  split; [reflexivity|].
  apply (X16_cleanup_targets_own_scratch env_ok url_watch [Next; Close]
           (mkResponse (GCreated video_path "/tmp/yt_k3") "video/mp4"
              [disposition "clip.mp4"])
           [Yield [Byte.x41; Byte.x42; Byte.x43]; Closed]).
  reflexivity.
Defined.

End StreamingFacts.

(** ** The content of the stream *)

Section StreamContent.

Import Pipeline.

Implicit Types (w : env) (g : gen_state) (rest content : list byte).

Lemma CHUNK_SIZE_pos : (0 < CHUNK_SIZE)%nat.
Proof.
  unfold CHUNK_SIZE. change 0%nat with (Z.to_nat 0).
  apply Z2Nat.inj_lt; lia.
Qed.

Lemma firstn_chunk_nil rest : firstn CHUNK_SIZE rest = [] -> rest = [].
Proof.
  pose proof CHUNK_SIZE_pos as H. remember CHUNK_SIZE as k eqn:E. clear E.
  destruct k as [|n]; [lia|].
  destruct rest; [reflexivity|discriminate].
Qed.

Lemma drive_cons w g (a : action) (acts : list action) :
  drive w g (a :: acts)
  = let '(r, g', evs) := gen_step w a g in
    let '(rs, g'', evs') := drive w g' acts in
    (r :: rs, g'', evs ++ evs').
Proof. reflexivity. Qed.

Lemma gen_next_yield w path tmpdir rest reads (b : byte) (c : list byte) :
  file_read w reads = inr tt ->
  firstn CHUNK_SIZE rest = b :: c ->
  gen_step w Next (GSuspended path tmpdir rest reads)
  = (Yield (b :: c),
     GSuspended path tmpdir (skipn CHUNK_SIZE rest) (S reads), [ERead path]).
Proof.
  intros Hr F. cbn [gen_step gen_next]. unfold read_loop.
  rewrite Hr, F. reflexivity.
Qed.

(** A generator suspended with [rest] still to read delivers [rest] in
    chunks and then stops. *)
Lemma stream_rest w path tmpdir :
  (forall n, file_read w n = inr tt) ->
  forall (fuel : nat) rest reads,
    (length rest <= fuel)%nat ->
    exists chunks t,
      drive w (GSuspended path tmpdir rest reads)
        (repeat Next (S (length chunks)))
      = (map Yield chunks ++ [StopIteration], GFinished, t)
      /\ concat chunks = rest
      /\ Forall (fun c => c <> [] /\ (length c <= CHUNK_SIZE)%nat) chunks
      /\ full_but_last chunks
      /\ (rest = [] -> chunks = []).
Proof.
  intros Hr. induction fuel as [|fuel IH]; intros rest reads Hlen.
  - destruct rest; [|cbn [length] in Hlen; lia].
    exists [], [ERead path; ECloseFile path; ERemove path; ERmdir tmpdir].
    cbn [length repeat drive gen_step gen_next]. unfold read_loop.
    rewrite Hr, firstn_nil, finally_spec. repeat split; constructor.
  - destruct (firstn CHUNK_SIZE rest) as [|b c] eqn:F.
    + apply firstn_chunk_nil in F as ->.
      exists [], [ERead path; ECloseFile path; ERemove path; ERmdir tmpdir].
      cbn [length repeat drive gen_step gen_next]. unfold read_loop.
      rewrite Hr, firstn_nil, finally_spec. repeat split; constructor.
    + assert (Hne : rest <> []) by (intros ->; rewrite firstn_nil in F; discriminate).
      assert (Hskip : (length (skipn CHUNK_SIZE rest) <= fuel)%nat).
      { rewrite length_skipn. pose proof CHUNK_SIZE_pos as Hpos.
        remember CHUNK_SIZE as k eqn:E. clear E F IH.
        destruct rest; [congruence|]. cbn [length] in *. lia. }
      destruct (IH (skipn CHUNK_SIZE rest) (S reads) Hskip)
        as (chunks & t & Hd & Hc & Hok & Hfull & Hnil).
      exists ((b :: c) :: chunks), (ERead path :: t).
      split.
      { cbn [length].
        change (repeat Next (S (S (length chunks))))
          with (Next :: repeat Next (S (length chunks))).
        set (acts := repeat Next (S (length chunks))) in *.
        rewrite drive_cons, (gen_next_yield w path tmpdir rest reads b c (Hr _) F).
        cbv beta iota zeta. rewrite Hd. reflexivity. }
      split.
      { cbn [concat]. rewrite <- F, Hc. apply firstn_skipn. }
      split.
      { constructor; [|exact Hok]. split; [discriminate|].
        rewrite <- F. apply List.firstn_le_length. }
      split.
      { cbn [full_but_last]. destruct chunks as [|c' chunks']; [exact I|].
        split; [|exact Hfull].
        rewrite <- F. apply List.firstn_length_le.
        destruct (Nat.le_gt_cases CHUNK_SIZE (length rest)) as [Hle|Hgt];
          [exact Hle|].
        exfalso. assert (E : skipn CHUNK_SIZE rest = []).
        { apply List.skipn_all2. apply Nat.lt_le_incl, Hgt. }
        specialize (Hnil E). discriminate. }
      intros ->. congruence.
Qed.

Lemma drive_open w path tmpdir content acts :
  file_open w path = inr content ->
  drive w (GCreated path tmpdir) (Next :: acts)
  = let '(rs, g, t) := drive w (GSuspended path tmpdir content 0) (Next :: acts) in
    (rs, g, EOpen path :: t).
Proof.
  intros H. cbn [drive gen_step gen_next]. rewrite H.
  destruct (read_loop w path tmpdir content 0) as [[r g] evs].
  destruct (drive w g acts) as [[rs g'] evs']. reflexivity.
Qed.

(** X17: when the file opens and no read fails, calling [next] until the
    generator stops delivers the content of the file, whole and in order:
    the chunks concatenate to the content, none is empty, none exceeds
    1 MiB, all but the last are exactly 1 MiB, and the generator ends
    finished. *)
Theorem X17_stream_delivers_content :
  forall w path tmpdir content,
    file_open w path = inr content ->
    (forall n, file_read w n = inr tt) ->
    exists chunks t,
      drive w (GCreated path tmpdir) (repeat Next (S (length chunks)))
      = (map Yield chunks ++ [StopIteration], GFinished, t)
      /\ concat chunks = content
      /\ Forall (fun c => c <> [] /\ (length c <= CHUNK_SIZE)%nat) chunks
      /\ full_but_last chunks.
Proof.
  intros w path tmpdir content Ho Hr.
  destruct (stream_rest w path tmpdir Hr (length content) content 0%nat
              (Nat.le_refl _))
    as (chunks & t & Hd & Hc & Hok & Hfull & _).
  exists chunks, (EOpen path :: t).
  split; [|auto].
  cbn [repeat]. rewrite (drive_open w path tmpdir content _ Ho).
  cbn [repeat] in Hd. rewrite Hd. reflexivity.
Qed.

Lemma X17_stream_delivers_content_witness :
  file_open env_ok video_path = inr [Byte.x41; Byte.x42; Byte.x43]
  /\ (forall n, file_read env_ok n = inr tt)
  /\ exists chunks t,
       drive env_ok (GCreated video_path "/tmp/yt_k3")
         (repeat Next (S (length chunks)))
       = (map Yield chunks ++ [StopIteration], GFinished, t)
       /\ concat chunks = [Byte.x41; Byte.x42; Byte.x43]
       /\ Forall (fun c => c <> [] /\ (length c <= CHUNK_SIZE)%nat) chunks
       /\ full_but_last chunks.
Proof.
  split; [reflexivity|]. split; [intros n; reflexivity|].
  apply (X17_stream_delivers_content env_ok video_path "/tmp/yt_k3"
           [Byte.x41; Byte.x42; Byte.x43]).
  - reflexivity.
  - intros n. reflexivity.
Defined.

End StreamContent.

(** ** The diagnostics endpoint *)

Section DiagnosticsFacts.

Import Diagnostics.

Implicit Types (db : option database) (getenv : string -> option ustr).

Lemma probe_lookup_other db (response : gmap string jval) (k : string) :
  k <> "database" -> k <> "database_url" -> k <> "database_name" ->
  k <> "connection_status" -> k <> "collections" ->
  probe_database db response !! k = response !! k.
Proof.
  intros H1 H2 H3 H4 H5. unfold probe_database, list_collections.
  destruct db as [d|]; [|by rewrite lookup_insert_ne].
  destruct (name_attr d), (list_collection_names d);
    by rewrite ?lookup_insert_ne.
Qed.

(** X18: whatever the state of the database, the response reports for
    database_url and database_name only whether the environment variable
    is set to a non-empty string, and backend is always the running
    mark. *)
Theorem X18_diagnostics_environment :
  forall db getenv,
    test_database db getenv !! "database_url"
    = Some (set_or_not (getenv "DATABASE_URL"))
    /\ test_database db getenv !! "database_name"
       = Some (set_or_not (getenv "DATABASE_NAME"))
    /\ test_database db getenv !! "backend"
       = Some (JStr (check_mark ++ of_string " Running"))
    /\ (set_or_not (getenv "DATABASE_URL")
        = JStr (check_mark ++ of_string " Set")
        <-> exists c s, getenv "DATABASE_URL" = Some (c :: s)).
Proof.
  intros db getenv. unfold test_database. split; [|split; [|split]].
  - rewrite lookup_insert_ne by discriminate. apply lookup_insert_eq.
  - apply lookup_insert_eq.
  - rewrite !lookup_insert_ne by discriminate.
    rewrite probe_lookup_other by discriminate. reflexivity.
  - unfold set_or_not, truthy.
    destruct (getenv "DATABASE_URL") as [[|c s]|]; split;
      try discriminate; try (intros (c' & s' & [=])); eauto.
Qed.

Lemma collections_lookup db :
  probe_database db initial_response !! "collections"
  = Some (JList
            match db with
            | Some d =>
                match name_attr d, list_collection_names d with
                | AttrRaises _, _ => []
                | _, inr all => slice_to all 10
                | _, inl _ => []
                end
            | None => []
            end).
Proof.
  unfold probe_database, list_collections, initial_response.
  destruct db as [d|]; [|by simplify_map_eq].
  destruct (name_attr d), (list_collection_names d); by simplify_map_eq.
Qed.

(** X19: the collections of the response are a list of at most ten names,
    the first ten the database listed; the list is empty unless the
    database is reachable and the listing worked. *)
Theorem X19_diagnostics_collections :
  forall db getenv,
    exists names,
      test_database db getenv !! "collections" = Some (JList names)
      /\ (length names <= 10)%nat
      /\ (names <> [] ->
          exists d all,
            db = Some d
            /\ (forall msg, name_attr d <> AttrRaises msg)
            /\ list_collection_names d = inr all
            /\ names = firstn 10 all).
Proof.
  intros db getenv. unfold test_database.
  rewrite !lookup_insert_ne by discriminate. rewrite collections_lookup.
  eexists. split; [reflexivity|].
  assert (Hs : forall all : list ustr, slice_to all 10 = firstn 10 all).
  { intros all. unfold slice_to. cbn [Z.ltb Z.compare].
    destruct (Z.le_gt_cases 10 (Z.of_nat (length all))) as [Hle|Hgt].
    - rewrite Z.min_l by exact Hle. reflexivity.
    - rewrite Z.min_r by lia. rewrite Nat2Z.id, firstn_all.
      symmetry. apply List.firstn_all2. lia. }
  destruct db as [d|]; [|split; [simpl; lia|intros H; contradiction]].
  destruct (name_attr d) as [|v|msg] eqn:Hn;
    destruct (list_collection_names d) as [msg'|all] eqn:Hl;
    try (split; [simpl; lia|intros H; contradiction]);
    (split; [rewrite Hs, length_firstn; lia|]);
    intros _; exists d, all;
    (split; [reflexivity|]);
    (split; [intros m; rewrite Hn; discriminate|]);
    (split; [exact Hl|apply Hs]).
Qed.

Lemma X19_diagnostics_collections_witness :
  test_database (Some db_many) (fun _ => None) !! "collections"
  = Some (JList (map (fun n => [n]) [97; 98; 99; 100; 101; 102; 103; 104; 105; 106]%N))
  /\ exists names,
       test_database (Some db_many) (fun _ => None) !! "collections"
       = Some (JList names)
       /\ (length names <= 10)%nat
       /\ (names <> [] ->
           exists d all,
             Some db_many = Some d
             /\ (forall msg, name_attr d <> AttrRaises msg)
             /\ list_collection_names d = inr all
             /\ names = firstn 10 all).
Proof.
  split; [vm_compute; reflexivity|].
  apply (X19_diagnostics_collections (Some db_many) (fun _ => None)).
Defined.

(** X20: connection_status is "Connected" exactly when the database is
    reachable, even if listing its collections then fails, and
    "Not Connected" otherwise; the database text first stored, "Not
    Available", is never the one returned. *)
Theorem X20_diagnostics_status :
  forall db getenv,
    (reachable db ->
     test_database db getenv !! "connection_status"
     = Some (JStr (of_string "Connected")))
    /\ (~ reachable db ->
        test_database db getenv !! "connection_status"
        = Some (JStr (of_string "Not Connected")))
    /\ (exists text,
          test_database db getenv !! "database" = Some (JStr text)
          /\ text <> cross_mark ++ of_string " Not Available").
Proof.
  intros db getenv. unfold test_database.
  rewrite !lookup_insert_ne by discriminate.
  unfold probe_database, list_collections, initial_response, reachable.
  destruct db as [d|].
  - destruct (name_attr d) as [|v|msg] eqn:Hn;
      destruct (list_collection_names d) as [msg'|all] eqn:Hl;
      (split; [|split]);
      try (intros _; by simplify_map_eq);
      try (intros H; exfalso; apply H; exists d; split; [reflexivity|];
           intros m; rewrite Hn; discriminate);
      try (intros (d' & [= <-] & H); exfalso; apply (H msg), Hn);
      try (eexists; split; [by simplify_map_eq|discriminate]).
  - split; [|split].
    + intros (d & [=] & _).
    + intros _. by simplify_map_eq.
    + eexists. split; [by simplify_map_eq|discriminate].
Qed.

Lemma X20_diagnostics_status_witness :
  reachable (Some db_listing_fails)
  /\ test_database (Some db_listing_fails) (fun _ => None) !! "connection_status"
     = Some (JStr (of_string "Connected"))
  /\ test_database (Some db_listing_fails) (fun _ => None) !! "database"
     = Some (JStr (warning_sign ++ of_string "  Connected but Error: timeout"))
  /\ ~ reachable None
  /\ test_database None (fun _ => None) !! "connection_status"
     = Some (JStr (of_string "Not Connected")).
Proof.
  assert (Hr : reachable (Some db_listing_fails)).
  { exists db_listing_fails. split; [reflexivity|]. intros msg. discriminate. }
  assert (Hn : ~ reachable None) by (intros (d & [=] & _)).
  split; [exact Hr|]. split.
  - apply (proj1 (X20_diagnostics_status (Some db_listing_fails) (fun _ => None)) Hr).
  - split; [vm_compute; reflexivity|]. split; [exact Hn|].
    apply (proj1 (proj2 (X20_diagnostics_status None (fun _ => None))) Hn).
Defined.

End DiagnosticsFacts.

(** ** [int()] on strings *)

Section IntOnStrings.

(** The digit limit: 4300 digits convert, 4301 do not, and the limit is
    checked before what follows the number. *)
Lemma int_digit_limit :
  convertible (PText (repeat 49%N 4300)) = true
  /\ int (PText (repeat 49%N 4301)) = inl (ValueError_max_digits 4301)
  /\ int (PText (repeat 49%N 4301 ++ [120%N])) = inl (ValueError_max_digits 4301)
  /\ int (PText (repeat 48%N 4301)) = inl (ValueError_max_digits 4301).
Proof. repeat split; vm_compute; reflexivity. Qed.

(** Outside ASCII: Unicode white space and decimal digits convert, other
    characters do not; a separator of ASCII is no white space for int(). *)
Lemma int_unicode :
  int (PText [160%N; 55%N]) = inr 7
  /\ int (PText [65303%N]) = inr 7
  /\ int (PText [1633%N; 1634%N; 1635%N]) = inr 123
  /\ int (PText [55%N; 12288%N]) = inr 7
  /\ int (PText [28%N; 55%N]) = inl (ValueError_literal [28%N; 55%N])
  /\ int (PText [28%N; 55%N; 160%N])
     = inl (ValueError_literal [28%N; 55%N; 160%N])
  /\ int (PText [178%N]) = inl (ValueError_literal [178%N]).
Proof. repeat split. Qed.

(** Both reach the query: the long number fails it with HTTP 500, the
    full-width seven is ranked with 7 points. *)
Lemma leaderboard_on_unusual_numbers :
  get_leaderboard (ret [doc_long_points]) None
  = Failed (mkHTTP 500 (DStr (ValueError_max_digits 4301)))
  /\ well_formed doc_long_points = false
  /\ well_formed doc_wide_points = true
  /\ get_leaderboard (ret [doc_wide_points]) None
     = Ok [mkEntry (PStr "Player") 7 1 10].
Proof. repeat split; vm_compute; reflexivity. Qed.

End IntOnStrings.
